(** * scripts/spm_encode_multiprocess.py: a shallow embedding

    The script tokenizes parallel text files with a SentencePiece model,
    row by row, inside a process pool, and writes the rows that survive the
    length filter.  Python text is modelled as a list of Unicode code
    points, Python integers as [Z], a tuple of lines as a list, [None] as
    [option], the open files and the three standard streams as a trace of
    events, and an uncaught exception as the left summand of the result. *)

From Stdlib Require Import ZArith String Ascii DecimalString.
From Stdlib Require DecimalPos DecimalZ.
From stdpp Require Import base option list gmap.

Local Open Scope Z_scope.

(** ** Python text *)

Module Py.

(** A [str] is a sequence of code points. *)
Abbreviation str := (list N).

(** The code points of an ASCII literal. *)
Definition lit (s : string) : str := map N_of_ascii (list_ascii_of_string s).
Arguments lit : simpl never.

Definition len {A} (l : list A) : Z := Z.of_nat (length l).

(** [str.isspace] on one code point: the characters [str.strip()] removes. *)
Definition isspace (c : N) : bool :=
  ((0x09 <=? c) && (c <=? 0x0D) || (0x1C <=? c) && (c <=? 0x20)
   || (c =? 0x85) || (c =? 0xA0) || (c =? 0x1680)
   || (0x2000 <=? c) && (c <=? 0x200A)
   || (c =? 0x2028) || (c =? 0x2029) || (c =? 0x202F) || (c =? 0x205F)
   || (c =? 0x3000))%N.

Fixpoint lstrip (s : str) : str :=
  match s with
  | c :: s' => if isspace c then lstrip s' else s
  | [] => []
  end.

Definition rstrip (s : str) : str := rev (lstrip (rev s)).

(** [s.strip()] *)
Definition strip (s : str) : str := rstrip (lstrip s).

(** [sep.join(l)] *)
Fixpoint join (sep : str) (l : list str) : str :=
  match l with
  | [] => []
  | [x] => x
  | x :: l' => x ++ sep ++ join sep l'
  end.

(** [s.split(sep)] for a one-character separator: the fields between the
    separators, empty fields kept, so the empty text has one (empty) field. *)
Fixpoint split (sep : N) (s : str) : list str :=
  match s with
  | [] => [[]]
  | c :: s' =>
      if (c =? sep)%N then [] :: split sep s'
      else match split sep s' with
           | w :: ws => (c :: w) :: ws
           | [] => [[c]]
           end
  end.

(** The line end [print] adds. *)
Definition nl : str := lit (String "010" EmptyString).

(** [str(n)] for an integer. *)
Definition str_of_int (n : Z) : str := lit (NilZero.string_of_int (Z.to_int n)).

(** [str(x)] as [print] applies it to an encoded line or to [None]. *)
Definition str_of (x : option str) : str :=
  match x with
  | Some s => s
  | None => lit "None"
  end.

(** [any(l)] *)
Definition any (l : list bool) : bool := existsb id l.

(** [zip] applied to the unpacked list [ls]: the tuples of the i-th
    elements, as long as every list has one; no argument gives no tuple. *)
Fixpoint zip_star {A} (ls : list (list A)) : list (list A) :=
  match ls with
  | [] => []
  | [l] => map (λ x, [x]) l
  | l :: ls' => zip_with cons l (zip_star ls')
  end.

End Py.
Import Py.

(** ** The SentencePiece library

    The processor is the external library's: it is a parameter of the
    model, an arbitrary pair of functions from a line to its pieces and to
    its ids. *)

Record SentencePieceProcessor := {
  EncodeAsPieces : str → list str;
  EncodeAsIds : str → list Z
}.

(** ** Command line *)

Inductive format := piece | id_.

Record Args := {
  model : str;
  inputs : list str;
  outputs : list str;
  output_format : format;
  min_len : option Z;
  max_len : option Z;
  processes : Z;
  keep_empty : bool
}.

(** ** The encoder, as run by a worker *)

Definition encode_line (encode : str → list str) (valid : list str → bool)
    (line : str) : option str * bool * bool :=
  let line := strip line in
  if 0 <? len line then
    let line_toks := encode line in
    if valid line_toks then (Some (join (lit " ") line_toks), false, false)
    else (None, true, false)
  else (Some (lit ""), false, true).

Definition encode_lines (encode : str → list str) (valid : list str → bool)
    (lines : list str) : list (option str) * bool * bool :=
  let results := map (encode_line encode valid) lines in
  (map (λ r, r.1.1) results,
   any (map (λ r, r.1.2) results),
   any (map (λ r, r.2) results)).

Definition valid_length_filter (args : Args) (line : list str) : bool :=
  (match min_len args with None => true | Some m => m <=? len line end)
  && (match max_len args with None => true | Some m => len line <=? m end).

Definition valid_true (args : Args) (lines : list str) : bool := true.

(** The worker's global [sp] is passed explicitly. *)
Definition encode_as_pieces (sp : SentencePieceProcessor) (input : str) : list str :=
  EncodeAsPieces sp input.

Definition encode_as_ids (sp : SentencePieceProcessor) (input : str) : list str :=
  map str_of_int (EncodeAsIds sp input).

(** ** Effects: exceptions and the trace of file and stream events *)

Inductive exn :=
  | AssertionError
  | LoadError
  | OSError (path : str)
  | ValueError.

(** [sys.stdout], [sys.stderr], and the file object opened for the [k]-th
    output path. *)
Inductive handle :=
  | stdout
  | stderr
  | file (k : nat) (path : str).

Inductive event :=
  | OpenRead (path : str)
  | OpenWrite (path : str)
  | Output (h : handle) (text : str).

Definition io (A : Type) : Type := list event → (exn + A) * list event.

#[global] Instance io_ret : MRet io := λ A x tr, (inr x, tr).

#[global] Instance io_bind : MBind io := λ A B k m tr,
  match m tr with
  | (inl e, tr') => (inl e, tr')
  | (inr x, tr') => k x tr'
  end.

Definition raise {A} (e : exn) : io A := λ tr, (inl e, tr).

Definition emit (ev : event) : io unit := λ tr, (inr tt, tr ++ [ev]).

(** [assert c] *)
Definition assert_ (c : bool) : io unit :=
  if c then mret tt else raise AssertionError.

(** [print(x, file=h)] *)
Definition print (x : str) (h : handle) : io unit :=
  emit (Output h (x ++ nl)).

(** What the script runs against: the model files the library can load,
    the lines that reading each readable file yields in the run (the loop
    reads after the outputs were opened), the paths that can be opened for
    writing, and the lines the wrapper built for the [k]-th input path
    gets from standard input. *)
Record Env := {
  spm_load : str → option SentencePieceProcessor;
  fs_lines : str → option (list str);
  fs_writable : str → bool;
  stdin_lines : nat → list str
}.

(** [sp = spm.SentencePieceProcessor(); sp.Load(path)] *)
Definition load (e : Env) (path : str) : io SentencePieceProcessor :=
  match spm_load e path with
  | Some sp => mret sp
  | None => raise LoadError
  end.

(** [initialize_sp(args)]: the processor a worker holds in its global. *)
Definition initialize_sp (e : Env) (args : Args) : option SentencePieceProcessor :=
  spm_load e (model args).

(** An open input is modelled by the lines that iterating it yields. *)
Definition open_read (e : Env) (path : str) : io (list str) :=
  match fs_lines e path with
  | Some ls => emit (OpenRead path) ;; mret ls
  | None => raise (OSError path)
  end.

Definition open_write (e : Env) (k : nat) (path : str) : io handle :=
  if fs_writable e path then emit (OpenWrite path) ;; mret (file k path)
  else raise (OSError path).

(** The two list comprehensions of [main], from position [k] on. *)
Fixpoint open_inputs (e : Env) (k : nat) (paths : list str) : io (list (list str)) :=
  match paths with
  | [] => mret []
  | input :: rest =>
      f ← (if decide (input ≠ lit "-") then open_read e input
           else mret (stdin_lines e k));
      fs ← open_inputs e (S k) rest;
      mret (f :: fs)
  end.

Fixpoint open_outputs (e : Env) (k : nat) (paths : list str) : io (list handle) :=
  match paths with
  | [] => mret []
  | output :: rest =>
      h ← (if decide (output ≠ lit "-") then open_write e k output
           else mret stdout);
      hs ← open_outputs e (S k) rest;
      mret (h :: hs)
  end.

(** ** The worker pool *)

Module Pool.

(** Modelled from the spec: [multiprocessing.Pool] and its [imap] are
    Python's library and are not under src/.  Following sections 2, 4.1,
    4.3 and 5 of the spec, a pool is a fixed number of workers, each
    holding the processor its own initializer call loaded; the rows are
    cut into batches of [chunksize]; batches finish on some worker in some
    order, the [schedule]; a finished batch is handed over at once when it
    is the next one in submission order and is buffered under its
    submission index otherwise; the consumer gets the rows of the batches
    in submission order. *)
Record pool := { workers : list SentencePieceProcessor }.

(** Modelled from the spec: [Pool(processes, initializer=...)], a fixed
    number of workers, each holding what its initializer loaded; the
    library refuses a pool without workers. *)
Definition create (processes : Z) (initializer : option SentencePieceProcessor)
    : io pool :=
  if processes <? 1 then raise ValueError
  else match initializer with
       | Some sp => mret {| workers := replicate (Z.to_nat processes) sp |}
       | None => raise LoadError
       end.

Fixpoint get_tasks_fuel {A} (fuel size : nat) (it : list A) : list (list A) :=
  match fuel, it with
  | S fuel', _ :: _ => take size it :: get_tasks_fuel fuel' size (drop size it)
  | _, _ => []
  end.

(** Modelled from the spec: the fixed-size batches, [size] successive
    elements each, the last one maybe shorter. *)
Definition get_tasks {A} (size : nat) (it : list A) : list (list A) :=
  get_tasks_fuel (length it) size it.

(** Modelled from the spec: the ordered result buffer, with the index of
    the next batch to hand over, the batches handed over so far, and the
    batches that finished early. *)
Record buffer (B : Type) := {
  next_index : nat;
  ready : list B;
  pending : gmap nat B
}.
Arguments next_index {B} _.
Arguments ready {B} _.
Arguments pending {B} _.

Definition empty_buffer {B} : buffer B :=
  {| next_index := 0%nat; ready := []; pending := ∅ |}.

Fixpoint drain {B} (fuel : nat) (b : buffer B) : buffer B :=
  match fuel with
  | O => b
  | S fuel' =>
      match pending b !! next_index b with
      | Some obj =>
          drain fuel' {| next_index := S (next_index b);
                         ready := ready b ++ [obj];
                         pending := delete (next_index b) (pending b) |}
      | None => b
      end
  end.

(** Modelled from the spec: batch [i] has finished with result [obj]; it
    is handed over with the buffered batches that follow it, or buffered. *)
Definition deliver {B} (i : nat) (obj : B) (b : buffer B) : buffer B :=
  if decide (next_index b = i) then
    drain (size (pending b))
      {| next_index := S i; ready := ready b ++ [obj]; pending := pending b |}
  else
    {| next_index := next_index b; ready := ready b;
       pending := <[i := obj]> (pending b) |}.

(** Completion order: worker [w] finishes batch [j]. *)
Abbreviation schedule := (list (nat * nat)).

(** Modelled from the spec: [p.imap(func, iterable, chunksize)], where
    [func] runs with the global processor of the worker it lands on.  It
    describes the runs in which every batch finishes, see [valid_schedule]. *)
Definition imap {A B} (p : pool) (sched : schedule)
    (func : SentencePieceProcessor → A → B) (iterable : list A)
    (chunksize : nat) : list B :=
  let tasks := get_tasks chunksize iterable in
  let finish b wj :=
    match workers p !! wj.1, tasks !! wj.2 with
    | Some sp, Some task => deliver wj.2 (map (func sp) task) b
    | _, _ => b
    end in
  concat (ready (foldl finish empty_buffer sched)).

(** A run of [p] workers over [k] batches: every batch finishes exactly
    once, on one of the workers. *)
Definition valid_schedule (p k : nat) (sched : schedule) : Prop :=
  sched.*2 ≡ₚ seq 0 k ∧ Forall (λ wj, (wj.1 < p)%nat) sched.

End Pool.

(** ** The aggregating loop of [main] *)

Record Stats := { num_empty : Z; num_filtered : Z }.

Abbreviation result := (list (option str) * bool * bool)%type.

Fixpoint for_each {A} (f : A → io unit) (l : list A) : io unit :=
  match l with
  | [] => mret tt
  | x :: l' => f x ;; for_each f l'
  end.

(** One iteration of the [for] loop over the pool's results. *)
Definition consume (args : Args) (outputs : list handle) (stats : Stats)
    (i : Z) (r : result) : io Stats :=
  let '(enc_lines, is_filtered, is_empty) := r in
  stats' ←
    (if is_filtered then
       mret {| num_empty := num_empty stats;
               num_filtered := num_filtered stats + 1 |}
     else if is_empty && negb (keep_empty args) then
       mret {| num_empty := num_empty stats + 1;
               num_filtered := num_filtered stats |}
     else
       for_each (λ eo, print (str_of eo.1) eo.2) (zip enc_lines outputs) ;;
       mret stats);
  (if i `mod` 10000 =? 0 then
     print (lit "processed " ++ str_of_int i ++ lit " lines") stderr
   else mret tt) ;;
  mret stats'.

(** The loop over [enumerate(iterable, start=i)]. *)
Fixpoint consume_all (args : Args) (outputs : list handle) (stats : Stats)
    (i : Z) (rs : list result) : io Stats :=
  match rs with
  | [] => mret stats
  | r :: rs' =>
      stats' ← consume args outputs stats i r;
      consume_all args outputs stats' (i + 1) rs'
  end.

(** ** [main] *)

(** [main]'s local [encode], chosen by [--output_format]. *)
Definition encoder (args : Args) : SentencePieceProcessor → str → list str :=
  match output_format args with
  | piece => encode_as_pieces
  | id_ => encode_as_ids
  end.

(** [main]'s local [valid]: the length filter when a bound is given. *)
Definition validator (args : Args) : list str → bool :=
  if bool_decide (min_len args ≠ None) || bool_decide (max_len args ≠ None)
  then valid_length_filter args
  else valid_true args.

(** The [with Pool(...)] block and the two summary lines. *)
Definition run_pool (e : Env) (args : Args) (sched : Pool.schedule)
    (ins : list (list str)) (outs : list handle) : io Stats :=
  p ← Pool.create (processes args) (initialize_sp e args);
  let iterable :=
    Pool.imap p sched
      (λ sp, encode_lines (encoder args sp) (validator args))
      (zip_star ins) 500 in
  consume_all args outs {| num_empty := 0; num_filtered := 0 |} 1 iterable.

Definition main (e : Env) (args : Args) (sched : Pool.schedule) : io Stats :=
  assert_ (bool_decide (length (inputs args) = length (outputs args))) ;;
  sp ← load e (model args);
  ins ← open_inputs e 0 (inputs args);
  outs ← open_outputs e 0 (outputs args);
  stats ← run_pool e args sched ins outs;
  print (lit "skipped " ++ str_of_int (num_empty stats) ++ lit " empty lines") stderr ;;
  print (lit "filtered " ++ str_of_int (num_filtered stats) ++ lit " lines") stderr ;;
  mret stats.

(** ** What the statements below measure *)

(** The process exit status: an uncaught exception ends the run with 1. *)
Definition exit_code {A} (r : exn + A) : Z :=
  match r with
  | inl _ => 1
  | inr _ => 0
  end.

(** The progress line of iteration [i], when it is due. *)
Definition progress (i : Z) : list event :=
  if i `mod` 10000 =? 0 then
    [Output stderr ((lit "processed " ++ str_of_int i ++ lit " lines") ++ nl)]
  else [].

(** One printed line per pair of an encoded line and an output handle. *)
Definition row_events (enc_lines : list (option str)) (outs : list handle)
    : list event :=
  map (λ eo, Output eo.2 (str_of eo.1 ++ nl)) (zip enc_lines outs).

(** The branch of the loop body that prints the row. *)
Definition written (args : Args) (r : result) : bool :=
  negb r.1.2 && negb (r.2 && negb (keep_empty args)).

(** The same command line with another pool size. *)
Definition with_processes (p : Z) (args : Args) : Args :=
  {| model := model args; inputs := inputs args; outputs := outputs args;
     output_format := output_format args; min_len := min_len args;
     max_len := max_len args; processes := p; keep_empty := keep_empty args |}.

(** The environment in which every input ends after its first [n] lines. *)
Definition cut_env (n : nat) (e : Env) : Env :=
  {| spm_load := spm_load e;
     fs_lines := λ path, take n <$> fs_lines e path;
     fs_writable := fs_writable e;
     stdin_lines := λ k, take n (stdin_lines e k) |}.

(** The number of rows of the inputs of [args]. *)
Definition n_rows (e : Env) (args : Args) : nat :=
  match (open_inputs e 0 (inputs args) []).1 with
  | inr ins => length (zip_star ins)
  | inl _ => 0%nat
  end.

(** The number of batches the pool gets for the inputs of [args]. *)
Definition n_batches (e : Env) (args : Args) : nat :=
  match (open_inputs e 0 (inputs args) []).1 with
  | inr ins => length (Pool.get_tasks 500 (zip_star ins))
  | inl _ => 0%nat
  end.

(** What iteration [i] of the loop adds to the trace. *)
Definition step_events (args : Args) (outs : list handle) (i : Z) (r : result)
    : list event :=
  (if written args r then row_events r.1.1 outs else []) ++ progress i.

(** What the loop adds to the trace, from iteration [i] on. *)
Fixpoint loop_events (args : Args) (outs : list handle) (i : Z)
    (rs : list result) : list event :=
  match rs with
  | [] => []
  | r :: rs' => step_events args outs i r ++ loop_events args outs (i + 1) rs'
  end.

(** The counters after one iteration. *)
Definition step_stats (args : Args) (stats : Stats) (r : result) : Stats :=
  if r.1.2 then
    {| num_empty := num_empty stats; num_filtered := num_filtered stats + 1 |}
  else if r.2 && negb (keep_empty args) then
    {| num_empty := num_empty stats + 1; num_filtered := num_filtered stats |}
  else stats.

(** The invariant of the ordered buffer, for the batches [done] that have
    finished when batch [j] yields [res j]: the batches before the next
    index have been handed over in order, the buffered ones are later
    finished batches, and every finished batch is in one of the two. *)
Definition buffer_inv {B} (res : nat → B) (done : list nat)
    (b : Pool.buffer B) : Prop :=
  Pool.ready b = map res (seq 0 (Pool.next_index b)) ∧
  (∀ j obj, Pool.pending b !! j = Some obj →
     obj = res j ∧ (Pool.next_index b ≤ j)%nat ∧ j ∈ done) ∧
  (∀ j, j ∈ done → (j < Pool.next_index b)%nat ∨ is_Some (Pool.pending b !! j)) ∧
  (∀ j, (j < Pool.next_index b)%nat → j ∈ done).

(** No buffered batch is the one the consumer waits for. *)
Definition settled {B} (b : Pool.buffer B) : Prop :=
  Pool.pending b !! Pool.next_index b = None.

(** The reference run: no pool, the rows encoded one after the other in
    input order with the loaded processor. *)
Definition main_in_order (e : Env) (args : Args) : io Stats :=
  assert_ (bool_decide (length (inputs args) = length (outputs args))) ;;
  sp ← load e (model args);
  ins ← open_inputs e 0 (inputs args);
  outs ← open_outputs e 0 (outputs args);
  stats ← consume_all args outs {| num_empty := 0; num_filtered := 0 |} 1
             (map (encode_lines (encoder args sp) (validator args)) (zip_star ins));
  print (lit "skipped " ++ str_of_int (num_empty stats) ++ lit " empty lines") stderr ;;
  print (lit "filtered " ++ str_of_int (num_filtered stats) ++ lit " lines") stderr ;;
  mret stats.

(** A computation whose result does not depend on the trace so far, which
    it only extends. *)
Definition stable {A} (m : io A) : Prop :=
  ∀ tr, m tr = ((m []).1, tr ++ (m []).2).

(** A computation that does not end in a failed assertion. *)
Definition passes {A} (m : io A) : Prop :=
  ∀ tr, (m tr).1 ≠ inl AssertionError.

(** ** Example data *)

Module Example.

(** A processor whose pieces are the words between spaces and whose ids
    are the code points. *)
Definition words : SentencePieceProcessor :=
  {| EncodeAsPieces := split 32; EncodeAsIds := map Z.of_N |}.


(** [--min-len 2], one worker, pieces, one input and one output file. *)
Definition args : Args :=
  {| model := lit "spm.model"; inputs := [lit "in.txt"];
     outputs := [lit "out.txt"]; output_format := piece;
     min_len := Some 2; max_len := None; processes := 1;
     keep_empty := false |}.

(** The same with [--keep-empty]. *)
Definition args_keep : Args :=
  {| model := lit "spm.model"; inputs := [lit "in.txt"];
     outputs := [lit "out.txt"]; output_format := piece;
     min_len := Some 2; max_len := None; processes := 1;
     keep_empty := true |}.

(** No length bound, ids. *)
Definition args_ids : Args :=
  {| model := lit "spm.model"; inputs := [lit "in.txt"];
     outputs := [lit "out.txt"]; output_format := id_;
     min_len := None; max_len := None; processes := 1;
     keep_empty := false |}.


(** Two inputs and one output path. *)
Definition args_mismatch : Args :=
  {| model := lit "spm.model"; inputs := [lit "in.txt"; lit "in2.txt"];
     outputs := [lit "out.txt"]; output_format := piece;
     min_len := None; max_len := None; processes := 1;
     keep_empty := false |}.

(** The three lines of the end-to-end example, as the file yields them. *)
Definition three_lines : list str :=
  [lit "hello world" ++ nl; nl; lit "a" ++ nl].

(** A file system with the input [in.txt], where every model path loads
    [sp] and every path can be written. *)
Definition env (sp : SentencePieceProcessor) (lines : list str) : Env :=
  {| spm_load := λ _, Some sp;
     fs_lines := λ path, if decide (path = lit "in.txt") then Some lines else None;
     fs_writable := λ _, true;
     stdin_lines := λ _, [] |}.

(** 1200 lines: three batches of rows. *)
Definition many_lines : list str :=
  replicate 600 (lit "a b" ++ nl) ++ replicate 600 (lit "c" ++ nl).

End Example.

(** ** What the further properties measure *)

#[global] Instance handle_eq_dec : EqDecision handle.
Proof. solve_decision. Defined.

(** The texts printed to the handle [h], in order. *)
Definition written_to (h : handle) (tr : list event) : list str :=
  omap (λ ev, match ev with
              | Output h' text => if decide (h' = h) then Some text else None
              | _ => None
              end) tr.

(** The paths opened for writing, in order. *)
Definition created (tr : list event) : list str :=
  omap (λ ev, match ev with OpenWrite path => Some path | _ => None end) tr.

(** The integer a decimal text stands for. *)
Definition parse_int (s : str) : option Z :=
  Z.of_int <$> NilZero.int_of_string (string_of_list_ascii (map ascii_of_N s)).

(** The progress line of iteration [i]. *)
Definition progress_line (i : Z) : str :=
  (lit "processed " ++ str_of_int i ++ lit " lines") ++ nl.

(** The two summary lines for the final counters. *)
Definition summary (stats : Stats) : list event :=
  [Output stderr ((lit "skipped " ++ str_of_int (num_empty stats)
                   ++ lit " empty lines") ++ nl);
   Output stderr ((lit "filtered " ++ str_of_int (num_filtered stats)
                   ++ lit " lines") ++ nl)].

(** The lines of the inputs at the positions [k], [k + 1], ... *)
Definition input_lines (e : Env) (k : nat) (paths : list str) : list (list str) :=
  imap (λ j path, if decide (path = lit "-") then stdin_lines e (k + j)
                  else default [] (fs_lines e path)) paths.

(** The handles of the outputs at the positions 0, 1, ... *)
Definition output_handles (paths : list str) : list handle :=
  imap (λ j path, if decide (path = lit "-") then stdout else file j path) paths.

(** The files among the paths, ["-"] left out. *)
Definition files (paths : list str) : list str :=
  filter (λ path, path ≠ lit "-") paths.

(** An input path that opens, and an output path that opens. *)
Definition readable (e : Env) (path : str) : Prop :=
  path = lit "-" ∨ is_Some (fs_lines e path).

Definition writable (e : Env) (path : str) : Prop :=
  path = lit "-" ∨ fs_writable e path = true.

(** Two parallel files, of which the second output cannot be written. *)
Module Parallel.

Definition args : Args :=
  {| model := lit "spm.model"; inputs := [lit "in.en"; lit "in.fr"];
     outputs := [lit "out.en"; lit "out.fr"]; output_format := piece;
     min_len := None; max_len := None; processes := 2;
     keep_empty := false |}.

Definition env : Env :=
  {| spm_load := λ _, Some Example.words; fs_lines := λ _, Some [];
     fs_writable := λ path, bool_decide (path = lit "out.en");
     stdin_lines := λ _, [] |}.

(** [--min-len 3 --max-len 2]. *)
Definition args_3_2 : Args :=
  {| model := lit "spm.model"; inputs := [lit "in.en"; lit "in.fr"];
     outputs := [lit "out.en"; lit "out.fr"]; output_format := piece;
     min_len := Some 3; max_len := Some 2; processes := 2;
     keep_empty := false |}.

End Parallel.

(** * Properties *)

Section Evaluation.

(** The model evaluated on small inputs. *)

Example strip_example : strip (lit "  hello world " ++ nl) = lit "hello world".
Proof. reflexivity. Qed.

Example strip_blank : strip (lit " " ++ nl) = lit "".
Proof. reflexivity. Qed.

(** The ideographic space is stripped, the zero-width space is not. *)
Example isspace_example : isspace 0x3000 = true ∧ isspace 0x200B = false.
Proof. split; reflexivity. Qed.

Example join_example : join (lit " ") [lit "a"; lit "bc"; lit "d"] = lit "a bc d".
Proof. reflexivity. Qed.

Example split_example : split 32 (lit "a bc  d") = [lit "a"; lit "bc"; lit ""; lit "d"].
Proof. reflexivity. Qed.

Example str_of_int_example :
  str_of_int 10000 = lit "10000" ∧ str_of_int 0 = lit "0"
  ∧ str_of_int (-7) = lit "-7".
Proof. repeat split; reflexivity. Qed.

Example zip_star_example :
  zip_star [[1; 2; 3]; [4; 5]; [6; 7; 8]] = [[1; 4; 6]; [2; 5; 7]].
Proof. reflexivity. Qed.

Example get_tasks_example :
  Pool.get_tasks 2 [1; 2; 3; 4; 5] = [[1; 2]; [3; 4]; [5]].
Proof. reflexivity. Qed.

(** The second batch finishes first and waits in the buffer. *)
Example deliver_example :
  Pool.deliver 1 [3; 4] (Pool.empty_buffer (B := list Z))
  = {| Pool.next_index := 0; Pool.ready := [];
       Pool.pending := {[ 1%nat := [3; 4] ]} |}
  ∧ Pool.ready (Pool.deliver 0 [1; 2]
                  (Pool.deliver 1 [3; 4] Pool.empty_buffer))
    = [[1; 2]; [3; 4]].
Proof. split; reflexivity. Qed.

Example imap_example :
  Pool.imap {| Pool.workers := [Example.words; Example.words] |}
    [(1, 2); (0, 0); (1, 1)]%nat (λ _ n, n * n) [1; 2; 3; 4; 5] 2
  = [1; 4; 9; 16; 25].
Proof. reflexivity. Qed.

Example encode_lines_example :
  encode_lines (encoder Example.args Example.words) (validator Example.args)
    [lit "hello world" ++ nl; nl; lit "a" ++ nl]
  = ([Some (lit "hello world"); Some (lit ""); None], true, true).
Proof. reflexivity. Qed.

Example progress_example :
  progress 3 = [] ∧ progress 20000 = [Output stderr (lit "processed 20000 lines" ++ nl)].
Proof. split; reflexivity. Qed.

End Evaluation.

Section Text.

Lemma len_pos {A} (l : list A) : (0 <? len l) = negb (bool_decide (l = [])).
Proof. destruct l; cbn; [done|]. unfold len; cbn [length]. apply Z.ltb_lt. lia. Qed.

Lemma split_no_sep (c : N) (t : str) : c ∉ t → split c t = [t].
Proof.
  induction t as [|x t IH]; intros Hc; [done|].
  apply not_elem_of_cons in Hc as [Hx Ht]. cbn.
  destruct (N.eqb_spec x c) as [->|_]; [done|]. by rewrite IH.
Qed.

Lemma split_app_sep (c : N) (t rest : str) :
  c ∉ t → split c (t ++ c :: rest) = t :: split c rest.
Proof.
  induction t as [|x t IH]; intros Hc; cbn.
  - by rewrite N.eqb_refl.
  - apply not_elem_of_cons in Hc as [Hx Ht].
    destruct (N.eqb_spec x c) as [->|_]; [done|]. by rewrite IH.
Qed.

(** Splitting undoes joining when no field holds the separator. *)
Lemma split_join (c : N) (toks : list str) :
  toks ≠ [] → Forall (λ t, c ∉ t) toks → split c (join [c] toks) = toks.
Proof.
  induction toks as [|x [|y l] IH]; intros Hne Hall; [done| |].
  - cbn. apply split_no_sep. by inversion Hall.
  - inversion Hall as [|? ? Hx Hrest]; subst.
    change (join [c] (x :: y :: l)) with (x ++ c :: join [c] (y :: l)).
    rewrite split_app_sep by done. f_equal. by apply IH.
Qed.

Lemma digits_no_space (d : Decimal.uint) :
  32%N ∉ lit (NilEmpty.string_of_uint d).
Proof.
  induction d; cbn; [apply not_elem_of_nil|..];
    (apply not_elem_of_cons; split; [done|assumption]).
Qed.

(** The decimal text of an integer holds no space. *)
Lemma str_of_int_no_space (n : Z) : 32%N ∉ str_of_int n.
Proof.
  unfold str_of_int. destruct (Z.to_int n) as [d|d]; cbn.
  - destruct d; try apply (digits_no_space (Decimal.Nil));
      cbn; (apply not_elem_of_cons; split; [done|]);
      try apply digits_no_space; apply not_elem_of_nil.
  - apply not_elem_of_cons; split; [done|].
    destruct d; try apply (digits_no_space (Decimal.Nil));
      cbn; (apply not_elem_of_cons; split; [done|]);
      try apply digits_no_space; apply not_elem_of_nil.
Qed.

End Text.

Section Encoder.

Variables (encode : str → list str) (valid : list str → bool).

Lemma encode_line_empty (line : str) :
  strip line = [] → encode_line encode valid line = (Some (lit ""), false, true).
Proof. intros H. unfold encode_line. by rewrite H. Qed.

Lemma encode_line_nonempty (line : str) :
  strip line ≠ [] →
  encode_line encode valid line =
    if valid (encode (strip line))
    then (Some (join (lit " ") (encode (strip line))), false, false)
    else (None, true, false).
Proof.
  intros H. unfold encode_line. rewrite len_pos.
  by rewrite bool_decide_eq_false_2.
Qed.

Lemma any_map_true {A} (f : A → bool) (l : list A) :
  any (map f l) = true ↔ ∃ x, x ∈ l ∧ f x = true.
Proof.
  unfold any. rewrite existsb_exists. split.
  - intros (b & Hin & Hb). apply in_map_iff in Hin as (x & <- & Hx).
    exists x. split; [by apply list_elem_of_In|done].
  - intros (x & Hx & Hfx). exists (f x). split; [|done].
    apply in_map_iff. exists x. split; [done|by apply list_elem_of_In].
Qed.

Lemma encode_lines_fst (lines : list str) :
  (encode_lines encode valid lines).1.1 =
    map (λ l, (encode_line encode valid l).1.1) lines.
Proof. unfold encode_lines. cbn. by rewrite map_map. Qed.

Lemma encode_lines_filtered (lines : list str) :
  (encode_lines encode valid lines).1.2 = true ↔
  ∃ line, line ∈ lines ∧ (encode_line encode valid line).1.2 = true.
Proof. unfold encode_lines. cbn. rewrite map_map. apply any_map_true. Qed.

Lemma encode_lines_is_empty (lines : list str) :
  (encode_lines encode valid lines).2 = true ↔
  ∃ line, line ∈ lines ∧ (encode_line encode valid line).2 = true.
Proof. unfold encode_lines. cbn. rewrite map_map. apply any_map_true. Qed.

(** A row none of whose positions is filtered holds no [None]. *)
Lemma encode_lines_unfiltered (lines : list str) :
  (encode_lines encode valid lines).1.2 = false →
  Forall (λ x, x ≠ None) (encode_lines encode valid lines).1.1.
Proof.
  intros Hf. rewrite encode_lines_fst. apply Forall_map, Forall_forall.
  intros line Hin Hnone. apply not_true_iff_false in Hf. apply Hf.
  apply encode_lines_filtered. exists line. split; [done|].
  revert Hnone. unfold encode_line.
  destruct (0 <? len (strip line)); [|done].
  by destruct (valid (encode (strip line))).
Qed.

(** Rows whose lines are all blank. *)
Lemma encode_lines_blank (lines : list str) :
  lines ≠ [] → Forall (λ line, strip line = []) lines →
  encode_lines encode valid lines =
    (replicate (length lines) (Some (lit "")), false, true).
Proof.
  intros Hne Hall. unfold encode_lines.
  assert (map (encode_line encode valid) lines
          = replicate (length lines) (Some (lit ""), false, true)) as ->.
  { clear Hne. induction Hall as [|line l Hl _ IH]; [done|].
    cbn [map length replicate]. by rewrite IH, encode_line_empty. }
  assert (∀ n, map (λ r : option str * bool * bool, r.1.1)
                 (replicate n (Some (lit ""), false, true))
               = replicate n (Some (lit ""))) as ->.
  { intros n. induction n; [done|]. cbn. by f_equal. }
  assert (∀ n, any (map (λ r : option str * bool * bool, r.1.2)
                 (replicate n (Some (lit ""), false, true))) = false) as ->.
  { intros n. induction n; [done|]. by cbn. }
  by destruct lines.
Qed.

End Encoder.

Section Loop.

Variables (args : Args) (outs : list handle).

Lemma for_each_print (l : list (option str * handle)) (tr : list event) :
  for_each (λ eo, print (str_of eo.1) eo.2) l tr =
    (inr tt, tr ++ map (λ eo, Output eo.2 (str_of eo.1 ++ nl)) l).
Proof.
  revert tr. induction l as [|eo l IH]; intros tr; cbn.
  - by rewrite app_nil_r.
  - unfold mbind, io_bind, print, emit. rewrite IH.
    by rewrite <- app_assoc.
Qed.

(** One iteration, in closed form. *)
Lemma consume_eq (stats : Stats) (i : Z) (r : result) (tr : list event) :
  consume args outs stats i r tr =
    (inr (step_stats args stats r), tr ++ step_events args outs i r).
Proof.
  destruct r as [[enc_lines is_filtered] is_empty].
  unfold consume, step_stats, step_events, written, progress, row_events.
  cbn [fst snd negb andb]. unfold mbind, io_bind, mret, io_ret, print, emit.
  destruct is_filtered; cbn [negb andb].
  - destruct (i `mod` 10000 =? 0); by rewrite ?app_nil_l, ?app_nil_r.
  - destruct (is_empty && negb (keep_empty args)); cbn [negb].
    + destruct (i `mod` 10000 =? 0); by rewrite ?app_nil_l, ?app_nil_r.
    + fold (@mbind io _) (@mret io _). rewrite for_each_print.
      destruct (i `mod` 10000 =? 0); by rewrite ?app_nil_r, ?app_assoc.
Qed.

(** The whole loop, in closed form. *)
Lemma consume_all_eq (rs : list result) (stats : Stats) (i : Z)
    (tr : list event) :
  consume_all args outs stats i rs tr =
    (inr (foldl (step_stats args) stats rs),
     tr ++ loop_events args outs i rs).
Proof.
  revert stats i tr. induction rs as [|r rs IH]; intros stats i tr; cbn.
  - by rewrite app_nil_r.
  - unfold mbind, io_bind. rewrite consume_eq, IH. by rewrite <- app_assoc.
Qed.

(** One row moves exactly one of: a counter, or the written rows. *)
Lemma step_count (stats : Stats) (r : result) :
  let stats' := step_stats args stats r in
  num_filtered stats' + num_empty stats' + (if written args r then 1 else 0)
  = num_filtered stats + num_empty stats + 1.
Proof.
  destruct r as [[enc f] em]. unfold step_stats, written. cbn [fst snd].
  destruct f, (em && negb (keep_empty args)); cbn; lia.
Qed.

(** Every row lands in exactly one of the three branches. *)
Lemma loop_count (rs : list result) (stats : Stats) :
  let stats' := foldl (step_stats args) stats rs in
  num_filtered stats' + num_empty stats'
  + len (filter (λ r, written args r = true) rs)
  = num_filtered stats + num_empty stats + len rs.
Proof.
  revert stats. induction rs as [|r rs IH]; intros stats.
  - unfold len. cbn. lia.
  - cbn zeta in *. cbn [foldl]. rewrite filter_cons.
    specialize (IH (step_stats args stats r)).
    pose proof (step_count stats r) as Hs. cbn zeta in Hs.
    unfold len in *. destruct (written args r).
    + rewrite decide_True by done. cbn [length]. lia.
    + rewrite decide_False by done. cbn [length]. lia.
Qed.

End Loop.

Section OrderedBuffer.

Local Open Scope nat_scope.
Import Pool.

Context {B : Type} (res : nat → B).

Lemma drain_inv (fuel : nat) (done : list nat) (b : buffer B) :
  buffer_inv res done b → size (pending b) ≤ fuel →
  buffer_inv res done (drain fuel b) ∧ settled (drain fuel b).
Proof.
  revert b. induction fuel as [|fuel IH]; intros b Hinv Hsize.
  - split; [done|]. unfold settled. cbn [drain].
    assert (pending b = ∅) as -> by (apply map_size_empty_inv; lia).
    apply lookup_empty.
  - cbn [drain]. destruct (pending b !! next_index b) as [obj|] eqn:Hnext;
      [|done].
    destruct Hinv as (Hready & Hpend & Hdone & Hlow).
    destruct (Hpend _ _ Hnext) as (-> & _ & Hin).
    apply IH; cbn [next_index ready pending].
    + split; [|split; [|split]]; cbn [next_index ready pending].
      * by rewrite seq_S, map_app, Hready.
      * intros j obj [Hne Hj]%lookup_delete_Some.
        destruct (Hpend _ _ Hj) as (? & ? & ?). split; [done|]. split; [lia|done].
      * intros j Hj. destruct (decide (j = next_index b)) as [->|Hne]; [left; lia|].
        destruct (Hdone j Hj) as [?|?]; [left; lia|]. right.
        by rewrite lookup_delete_ne.
      * intros j Hj. destruct (decide (j = next_index b)) as [->|Hne]; [done|].
        apply Hlow. lia.
    + rewrite map_size_delete_Some by eauto. lia.
Qed.

Lemma deliver_inv (done : list nat) (b : buffer B) (j : nat) :
  buffer_inv res done b → settled b → j ∉ done →
  buffer_inv res (j :: done) (deliver j (res j) b)
  ∧ settled (deliver j (res j) b).
Proof.
  intros (Hready & Hpend & Hdone & Hlow) Hset Hfresh. unfold deliver.
  destruct (decide (next_index b = j)) as [<-|Hne].
  - apply drain_inv; cbn [next_index ready pending]; [|done].
    split; [|split; [|split]]; cbn [next_index ready pending].
    + by rewrite seq_S, map_app, Hready.
    + intros j obj Hj.
      destruct (Hpend _ _ Hj) as (? & ? & ?). split; [done|]. split.
      * destruct (decide (j = next_index b)) as [->|?]; [|lia].
        unfold settled in Hset. congruence.
      * by apply elem_of_cons; right.
    + intros j [->|Hj]%elem_of_cons; [left; lia|].
      destruct (Hdone j Hj) as [?|?]; [left; lia|by right].
    + intros j Hj. destruct (decide (j = next_index b)) as [->|?].
      * by apply elem_of_cons; left.
      * apply elem_of_cons; right. apply Hlow. lia.
  - assert (next_index b < j).
    { destruct (decide (j < next_index b)) as [Hlt|?]; [|lia].
      by apply Hlow in Hlt. }
    split; [|unfold settled; cbn; by rewrite lookup_insert_ne by lia].
    split; [|split; [|split]]; cbn [next_index ready pending].
    + done.
    + intros j' obj [[<- <-]|[_ Hj]]%lookup_insert_Some.
      * split; [done|]. split; [lia|by apply elem_of_cons; left].
      * destruct (Hpend _ _ Hj) as (? & ? & ?).
        split; [done|]. split; [done|by apply elem_of_cons; right].
    + intros j' [->|Hj]%elem_of_cons.
      * right. rewrite lookup_insert_eq. eauto.
      * destruct (Hdone j' Hj) as [?|?]; [by left|right].
        rewrite lookup_insert_ne; [done|]. by intros ->.
    + intros j' Hj. apply elem_of_cons; right. by apply Hlow.
Qed.

Lemma deliveries_inv (js done : list nat) (b : buffer B) :
  buffer_inv res done b → settled b → NoDup js →
  (∀ j, j ∈ js → j ∉ done) →
  let b' := foldl (λ b j, deliver j (res j) b) b js in
  buffer_inv res (rev js ++ done) b' ∧ settled b'.
Proof.
  revert done b. induction js as [|j js IH]; intros done b Hinv Hset Hnd Hfresh.
  - done.
  - cbn zeta. cbn [foldl rev]. apply NoDup_cons in Hnd as [Hj Hnd].
    destruct (deliver_inv done b j) as [Hinv' Hset']; [done|done| |].
    { apply Hfresh. by apply elem_of_cons; left. }
    rewrite <- app_assoc. cbn [app]. apply IH; [done|done|done|].
    intros j' Hj' Hin. apply elem_of_cons in Hin as [->|Hin]; [done|].
    eapply Hfresh; [|done]. by apply elem_of_cons; right.
Qed.

Lemma empty_buffer_inv :
  buffer_inv res [] empty_buffer ∧ settled (@empty_buffer B).
Proof.
  split; [|apply lookup_empty]. split; [|split; [|split]]; cbn.
  - done.
  - intros j obj Hj. by apply lookup_empty_Some in Hj.
  - intros j Hj. by apply not_elem_of_nil in Hj.
  - intros j Hj. lia.
Qed.

(** When every one of [k] batches has finished, exactly once and in
    whatever order, the buffer has handed them over in submission order. *)
Lemma deliveries_ordered (js : list nat) (k : nat) :
  js ≡ₚ seq 0 k →
  ready (foldl (λ b j, deliver j (res j) b) empty_buffer js)
  = map res (seq 0 k).
Proof.
  intros Hperm.
  destruct empty_buffer_inv as [Hinv0 Hset0].
  destruct (deliveries_inv js [] empty_buffer) as [Hinv Hset]; [done|done| | |].
  { rewrite Hperm. apply NoDup_seq. }
  { intros j _. apply not_elem_of_nil. }
  cbn zeta in *. rewrite app_nil_r in Hinv.
  set (b := foldl _ _ _) in *.
  destruct Hinv as (Hready & Hpend & Hdone & Hlow).
  assert (∀ j, j ∈ rev js ↔ j < k) as Hmem.
  { intros j. rewrite <- Permutation_rev, Hperm, elem_of_seq. lia. }
  assert (next_index b = k) as <-; [|done].
  destruct (lt_eq_lt_dec (next_index b) k) as [[Hlt|?]|Hgt]; [|done|].
  - apply Hmem, Hdone in Hlt as [?|[obj Hobj]]; [lia|].
    unfold settled in Hset. congruence.
  - apply Hlow, Hmem in Hgt. lia.
Qed.

End OrderedBuffer.

Section Imap.

Local Open Scope nat_scope.
Import Pool.

Lemma get_tasks_fuel_concat {A} (fuel size : nat) (it : list A) :
  1 ≤ size → length it ≤ fuel → concat (get_tasks_fuel fuel size it) = it.
Proof.
  intros Hsize. revert it. induction fuel as [|fuel IH]; intros it Hlen.
  - destruct it; [done|]. cbn in Hlen. lia.
  - destruct it as [|x it]; [done|]. cbn [get_tasks_fuel concat].
    rewrite IH; [apply take_drop|].
    rewrite length_drop. cbn [length] in *. lia.
Qed.

(** The batches, one after the other, are the rows. *)
Lemma get_tasks_concat {A} (size : nat) (it : list A) :
  1 ≤ size → concat (get_tasks size it) = it.
Proof. intros. by apply get_tasks_fuel_concat. Qed.

Lemma map_lookup_seq {A B} (f : A → B) (d : A) (l : list A) :
  map (λ j, f (default d (l !! j))) (seq 0 (length l)) = map f l.
Proof.
  apply list_eq. intros i. rewrite !list_lookup_fmap.
  destruct (decide (i < length l)) as [Hlt|Hge].
  - rewrite lookup_seq_lt by done. cbn.
    destruct (lookup_lt_is_Some_2 l i Hlt) as [x Hx]. by rewrite Hx.
  - rewrite lookup_seq_ge by lia. by rewrite lookup_ge_None_2 by lia.
Qed.

(** The ordered map: whatever the schedule, as long as every batch
    finishes once on a worker of the pool, and whatever the number of
    workers, the consumer sees the results in the order of the rows. *)
Lemma imap_ordered {A B} (p : pool) (sched : schedule)
    (func : SentencePieceProcessor → A → B) (xs : list A) (chunksize : nat)
    (sp : SentencePieceProcessor) :
  1 ≤ chunksize →
  (∀ w sp', workers p !! w = Some sp' → sp' = sp) →
  valid_schedule (length (workers p)) (length (get_tasks chunksize xs)) sched →
  imap p sched func xs chunksize = map (func sp) xs.
Proof.
  intros Hc Hsp [Hperm Hw]. unfold imap.
  set (tasks := get_tasks chunksize xs) in *.
  set (res := λ j, map (func sp) (default [] (tasks !! j))).
  set (finish := λ b wj, match workers p !! wj.1, tasks !! wj.2 with
                         | Some sp0, Some task => deliver wj.2 (map (func sp0) task) b
                         | _, _ => b
                         end).
  assert (∀ b, foldl finish b sched
               = foldl (λ b j, deliver j (res j) b) b sched.*2) as ->.
  { assert (Forall (λ wj, wj.2 < length tasks) sched) as Hj.
    { apply Forall_forall. intros wj Hin.
      assert (wj.2 ∈ sched.*2) as Hin2 by (by apply list_elem_of_fmap_2).
      rewrite Hperm in Hin2. apply elem_of_seq in Hin2. lia. }
    clear Hperm. induction sched as [|[w j] sched IH]; intros b; [done|].
    inversion Hw as [|? ? Hw1 Hw2]; inversion Hj as [|? ? Hj1 Hj2]; subst.
    cbn [foldl fmap list_fmap]. rewrite <- IH by done. f_equal.
    unfold finish, res. cbn [fst snd] in *.
    destruct (lookup_lt_is_Some_2 _ _ Hw1) as [sp0 Hsp0].
    destruct (lookup_lt_is_Some_2 _ _ Hj1) as [task Htask].
    rewrite Hsp0, Htask. cbn. by rewrite (Hsp _ _ Hsp0). }
  rewrite (deliveries_ordered res _ _ Hperm). unfold res.
  rewrite (map_lookup_seq (map (func sp)) [] tasks).
  rewrite <- concat_map. unfold tasks. by rewrite get_tasks_concat.
Qed.

End Imap.

Section Effects.

Lemma stable_ret {A} (x : A) : stable (mret x).
Proof. intros tr. cbn. by rewrite app_nil_r. Qed.

Lemma stable_raise {A} (ex : exn) : stable (@raise A ex).
Proof. intros tr. cbn. by rewrite app_nil_r. Qed.

Lemma stable_emit (ev : event) : stable (emit ev).
Proof. by intros tr. Qed.

Lemma stable_bind {A B} (m : io A) (k : A → io B) :
  stable m → (∀ x, stable (k x)) → stable (m ≫= k).
Proof.
  intros Hm Hk tr. unfold mbind, io_bind. rewrite (Hm tr).
  destruct (m []) as [[ex|x] w]; cbn [fst snd]; [done|].
  rewrite (Hk x (tr ++ w)), (Hk x w). cbn [fst snd]. by rewrite app_assoc.
Qed.

Lemma open_inputs_stable (e : Env) (paths : list str) (k : nat) :
  stable (open_inputs e k paths).
Proof.
  revert k. induction paths as [|input rest IH]; intros k; cbn [open_inputs].
  - apply stable_ret.
  - apply stable_bind.
    + destruct (decide (input ≠ lit "-")); [|apply stable_ret].
      unfold open_read. destruct (fs_lines e input); [|apply stable_raise].
      apply stable_bind; [apply stable_emit|intros; apply stable_ret].
    + intros f. apply stable_bind; [apply IH|intros; apply stable_ret].
Qed.

Lemma passes_ret {A} (x : A) : passes (mret x).
Proof. by intros tr. Qed.

Lemma passes_raise {A} (ex : exn) : ex ≠ AssertionError → passes (@raise A ex).
Proof. intros Hex tr. cbn. congruence. Qed.

Lemma passes_emit (ev : event) : passes (emit ev).
Proof. by intros tr. Qed.

Lemma passes_bind {A B} (m : io A) (k : A → io B) :
  passes m → (∀ x, passes (k x)) → passes (m ≫= k).
Proof.
  intros Hm Hk tr. unfold mbind, io_bind. specialize (Hm tr).
  destruct (m tr) as [[ex|x] tr']; [|apply Hk].
  cbn in *. congruence.
Qed.

Lemma open_inputs_passes (e : Env) (paths : list str) (k : nat) :
  passes (open_inputs e k paths).
Proof.
  revert k. induction paths as [|input rest IH]; intros k; cbn [open_inputs].
  - apply passes_ret.
  - apply passes_bind.
    + destruct (decide (input ≠ lit "-")); [|apply passes_ret].
      unfold open_read. destruct (fs_lines e input); [|by apply passes_raise].
      apply passes_bind; [apply passes_emit|intros; apply passes_ret].
    + intros f. apply passes_bind; [apply IH|intros; apply passes_ret].
Qed.

Lemma open_outputs_passes (e : Env) (paths : list str) (k : nat) :
  passes (open_outputs e k paths).
Proof.
  revert k. induction paths as [|output rest IH]; intros k; cbn [open_outputs].
  - apply passes_ret.
  - apply passes_bind.
    + destruct (decide (output ≠ lit "-")); [|apply passes_ret].
      unfold open_write. destruct (fs_writable e output); [|by apply passes_raise].
      apply passes_bind; [apply passes_emit|intros; apply passes_ret].
    + intros h. apply passes_bind; [apply IH|intros; apply passes_ret].
Qed.

Lemma run_pool_passes (e : Env) (args : Args) (sched : Pool.schedule)
    (ins : list (list str)) (outs : list handle) :
  passes (run_pool e args sched ins outs).
Proof.
  unfold run_pool. apply passes_bind.
  - unfold Pool.create. destruct (processes args <? 1); [by apply passes_raise|].
    destruct (initialize_sp e args); [apply passes_ret|by apply passes_raise].
  - intros p tr. by rewrite consume_all_eq.
Qed.

End Effects.

Section Rows.

Local Open Scope nat_scope.
Context {A : Type}.

(** A row holds one line per input. *)
Lemma zip_star_width (ls : list (list A)) (row : list A) :
  row ∈ zip_star ls → length row = length ls.
Proof.
  revert row. induction ls as [|l [|l' ls] IH]; intros row Hin.
  - by apply not_elem_of_nil in Hin.
  - cbn in Hin. by apply list_elem_of_fmap in Hin as (x & -> & _).
  - change (zip_star (l :: l' :: ls))
      with (zip_with cons l (zip_star (l' :: ls))) in Hin.
    rewrite zip_with_zip in Hin.
    apply list_elem_of_fmap in Hin as ([x r] & -> & Hin).
    apply elem_of_zip_r in Hin. cbn in *. f_equal. by apply IH.
Qed.

(** A row is never the empty tuple. *)
Lemma zip_star_nonempty (ls : list (list A)) (row : list A) :
  row ∈ zip_star ls → row ≠ [].
Proof.
  intros Hin ->. pose proof (zip_star_width _ _ Hin) as Hw.
  destruct ls; [by apply not_elem_of_nil in Hin|done].
Qed.

(** The number of rows is the length of a shortest input. *)
Lemma zip_star_length (ls : list (list A)) :
  ls ≠ [] →
  (∀ l, l ∈ ls → length (zip_star ls) ≤ length l)
  ∧ (∃ l, l ∈ ls ∧ length l = length (zip_star ls)).
Proof.
  induction ls as [|l [|l' ls] IH]; intros Hne; [done| |].
  - cbn. rewrite length_map. split.
    + by intros l' ->%list_elem_of_singleton.
    + exists l. split; [apply list_elem_of_here|done].
  - change (zip_star (l :: l' :: ls))
      with (zip_with cons l (zip_star (l' :: ls))).
    rewrite length_zip_with. destruct IH as [Hle (m & Hm & Hlen)]; [done|].
    split.
    + intros x [->|Hx]%elem_of_cons; [lia|]. specialize (Hle x Hx). lia.
    + destruct (decide (length l ≤ length (zip_star (l' :: ls)))).
      * exists l. split; [apply list_elem_of_here|lia].
      * exists m. split; [by apply list_elem_of_further|lia].
Qed.

(** Cutting every input after [n] lines keeps the first [n] rows. *)
Lemma zip_star_take (n : nat) (ls : list (list A)) :
  zip_star (map (take n) ls) = take n (zip_star ls).
Proof.
  induction ls as [|l [|l' ls] IH]; [by destruct n| |].
  - cbn. by rewrite <- fmap_take.
  - change (zip_star (l :: l' :: ls))
      with (zip_with cons l (zip_star (l' :: ls))).
    rewrite zip_with_take, <- IH. done.
Qed.

End Rows.

Section Main.

Variable e : Env.

Lemma consume_all_ext (a1 a2 : Args) (outs : list handle) (stats : Stats)
    (i : Z) (rs : list result) (tr : list event) :
  keep_empty a1 = keep_empty a2 →
  consume_all a1 outs stats i rs tr = consume_all a2 outs stats i rs tr.
Proof.
  intros Hk. revert stats i tr.
  induction rs as [|r rs IH]; intros stats i tr; [done|].
  cbn [consume_all]. unfold mbind, io_bind. rewrite !consume_eq.
  unfold step_stats, step_events, written. rewrite Hk. apply IH.
Qed.

(** With a pool and a schedule of its own, the block computes what the
    loop computes over the rows encoded in input order. *)
Lemma run_pool_ordered (args : Args) (sched : Pool.schedule)
    (ins : list (list str)) (outs : list handle)
    (sp : SentencePieceProcessor) :
  1 ≤ processes args → initialize_sp e args = Some sp →
  Pool.valid_schedule (Z.to_nat (processes args))
    (length (Pool.get_tasks 500 (zip_star ins))) sched →
  run_pool e args sched ins outs =
    consume_all args outs {| num_empty := 0; num_filtered := 0 |} 1
      (map (encode_lines (encoder args sp) (validator args)) (zip_star ins)).
Proof.
  intros Hp Hinit Hsched. unfold run_pool, Pool.create. rewrite Hinit.
  assert ((processes args <? 1) = false) as -> by (apply Z.ltb_ge; lia).
  set (p := {| Pool.workers := replicate (Z.to_nat (processes args)) sp |}).
  assert (∀ (k : Pool.pool → io Stats), ((mret p) ≫= k) = k p) as -> by done.
  rewrite (imap_ordered p sched _ (zip_star ins) 500 sp); [done|lia| |].
  - intros w sp' Hw. by apply lookup_replicate in Hw as [-> _].
  - unfold p. cbn [Pool.workers]. by rewrite length_replicate.
Qed.

Lemma load_Some (path : str) (tr tr' : list event)
    (sp : SentencePieceProcessor) :
  load e path tr = (inr sp, tr') → spm_load e path = Some sp ∧ tr' = tr.
Proof.
  unfold load. destruct (spm_load e path); [|done].
  cbn. intros [= -> ->]. done.
Qed.

Lemma n_batches_opened (args : Args) (ins : list (list str))
    (tr tr' : list event) :
  open_inputs e 0 (inputs args) tr = (inr ins, tr') →
  n_batches e args = length (Pool.get_tasks 500 (zip_star ins)).
Proof.
  rewrite open_inputs_stable. intros [= Hins _]. unfold n_batches.
  by rewrite Hins.
Qed.

(** A pool run is the in-order run. *)
Lemma main_ordered (args : Args) (sched : Pool.schedule) (tr : list event) :
  1 ≤ processes args →
  Pool.valid_schedule (Z.to_nat (processes args)) (n_batches e args) sched →
  main e args sched tr = main_in_order e args tr.
Proof.
  intros Hp Hsched. unfold main, main_in_order, mbind, io_bind.
  destruct (assert_ _ tr) as [[ex|[]] tr0]; [done|].
  destruct (load e (model args) tr0) as [[ex|sp] tr1] eqn:Hload; [done|].
  apply load_Some in Hload as [Hload ->].
  destruct (open_inputs _ _ _ tr0) as [[ex|ins] tr2] eqn:Hins; [done|].
  destruct (open_outputs _ _ _ tr2) as [[ex|outs] tr3]; [done|].
  rewrite (n_batches_opened _ _ _ _ Hins) in Hsched.
  by rewrite (run_pool_ordered args sched ins outs sp).
Qed.

(** The in-order run does not look at the pool size. *)
Lemma main_in_order_processes (args : Args) (p : Z) (tr : list event) :
  main_in_order e (with_processes p args) tr = main_in_order e args tr.
Proof.
  unfold main_in_order, mbind, io_bind.
  cbn [with_processes inputs outputs model].
  destruct (assert_ _ tr) as [[ex|[]] tr0]; [done|].
  destruct (load e (model args) tr0) as [[ex|sp] tr1]; [done|].
  destruct (open_inputs _ _ _ tr1) as [[ex|ins] tr2]; [done|].
  destruct (open_outputs _ _ _ tr2) as [[ex|outs] tr3]; [done|].
  by rewrite (consume_all_ext (with_processes p args) args).
Qed.

End Main.

(** * The specification's properties *)

(** C1. For every row, the encoder strips each line; a line that is empty
    after stripping yields the empty string with its position marked empty;
    a non-empty line is tokenized and yields the space-joined tokens when
    the length predicate accepts them, and [None] with its position marked
    filtered otherwise.  The row's outputs are the positions' outputs, its
    filtered flag is true iff some position was filtered, and its empty flag
    is true iff some position was empty. *)
Theorem C1_encode_lines (encode : str → list str) (valid : list str → bool)
    (lines : list str) :
  (∀ line,
     (strip line = [] →
      encode_line encode valid line = (Some (lit ""), false, true))
     ∧ (strip line ≠ [] → valid (encode (strip line)) = true →
        encode_line encode valid line
        = (Some (join (lit " ") (encode (strip line))), false, false))
     ∧ (strip line ≠ [] → valid (encode (strip line)) = false →
        encode_line encode valid line = (None, true, false)))
  ∧ (encode_lines encode valid lines).1.1
    = map (λ line, (encode_line encode valid line).1.1) lines
  ∧ ((encode_lines encode valid lines).1.2 = true ↔
     ∃ line, line ∈ lines ∧ strip line ≠ []
             ∧ valid (encode (strip line)) = false)
  ∧ ((encode_lines encode valid lines).2 = true ↔
     ∃ line, line ∈ lines ∧ strip line = []).
Proof.
  split; [|split; [|split]].
  - intros line. split; [apply encode_line_empty|].
    split; intros Hne Hv; by rewrite encode_line_nonempty, Hv.
  - apply encode_lines_fst.
  - rewrite encode_lines_filtered. split.
    + intros (line & Hin & Hf). exists line. split; [done|].
      destruct (decide (strip line = [])) as [He|Hne].
      * by rewrite encode_line_empty in Hf.
      * split; [done|]. rewrite encode_line_nonempty in Hf by done.
        by destruct (valid (encode (strip line))).
    + intros (line & Hin & Hne & Hv). exists line. split; [done|].
      by rewrite encode_line_nonempty, Hv.
  - rewrite encode_lines_is_empty. split.
    + intros (line & Hin & Hf). exists line. split; [done|].
      destruct (decide (strip line = [])) as [He|Hne]; [done|].
      rewrite encode_line_nonempty in Hf by done.
      by destruct (valid (encode (strip line))).
    + intros (line & Hin & He). exists line. split; [done|].
      by rewrite encode_line_empty.
Qed.

(** C2. For every consumed row the aggregator takes exactly one of three
    actions, filtered first: a filtered row adds one to the filtered counter
    and prints nothing, even when it is also empty; otherwise an empty row
    with keep-empty off adds one to the empty counter and prints nothing;
    otherwise the encoded lines are printed, one to each corresponding
    output stream, and no counter moves.  Over any sequence of rows, the two
    counters and the number of written rows add up to the number of rows
    consumed. *)
Theorem C2_aggregator (args : Args) (outs : list handle) :
  (∀ stats i enc_lines is_filtered is_empty tr,
     let r := (enc_lines, is_filtered, is_empty) in
     (is_filtered = true ∧ written args r = false
      ∧ consume args outs stats i r tr
        = (inr {| num_empty := num_empty stats;
                  num_filtered := num_filtered stats + 1 |},
           tr ++ progress i))
     ∨ (is_filtered = false ∧ is_empty = true ∧ keep_empty args = false
        ∧ written args r = false
        ∧ consume args outs stats i r tr
          = (inr {| num_empty := num_empty stats + 1;
                    num_filtered := num_filtered stats |},
             tr ++ progress i))
     ∨ (is_filtered = false ∧ (is_empty = false ∨ keep_empty args = true)
        ∧ written args r = true
        ∧ consume args outs stats i r tr
          = (inr stats, tr ++ row_events enc_lines outs ++ progress i)))
  ∧ (∀ enc_lines k h,
       length enc_lines = length outs → outs !! k = Some h →
       ∃ x, enc_lines !! k = Some x
            ∧ row_events enc_lines outs !! k = Some (Output h (str_of x ++ nl)))
  ∧ (∀ rs stats i tr,
       ∃ stats',
         consume_all args outs stats i rs tr
         = (inr stats', tr ++ loop_events args outs i rs)
         ∧ num_filtered stats' + num_empty stats'
           + len (filter (λ r, written args r = true) rs)
           = num_filtered stats + num_empty stats + len rs).
Proof.
  split; [|split].
  - intros stats i enc_lines is_filtered is_empty tr r.
    unfold r. rewrite consume_eq.
    unfold step_stats, step_events, written. cbn [fst snd].
    destruct is_filtered; [left; done|].
    destruct is_empty, (keep_empty args) eqn:Hk; cbn [negb andb].
    + right; right. repeat split; try done. by right.
    + right; left. done.
    + right; right. repeat split; try done. by left.
    + right; right. repeat split; try done. by left.
  - intros enc_lines k h Hlen Hk.
    destruct (lookup_lt_is_Some_2 enc_lines k) as [x Hx].
    { rewrite Hlen. by eapply lookup_lt_Some. }
    exists x. split; [done|]. unfold row_events.
    by rewrite list_lookup_fmap, lookup_zip_with, Hx, Hk.
  - intros rs stats i tr. eexists. split; [apply consume_all_eq|].
    apply loop_count.
Qed.

Lemma validator_bounded (args : Args) :
  min_len args ≠ None ∨ max_len args ≠ None →
  validator args = valid_length_filter args.
Proof.
  intros H. unfold validator.
  destruct (min_len args), (max_len args); try done. by destruct H.
Qed.

(** C3. The length predicate accepts a token sequence iff its length is
    within the inclusive bounds that are set; and a row with a tokenized
    line whose token count is below [min_len] or above [max_len] prints
    nothing and adds exactly one to the filtered counter. *)
Theorem C3_length_filter (args : Args) :
  (∀ toks,
     valid_length_filter args toks = true ↔
     (min_len args = None ∨ ∃ m, min_len args = Some m ∧ m ≤ len toks)
     ∧ (max_len args = None ∨ ∃ m, max_len args = Some m ∧ len toks ≤ m))
  ∧ (∀ sp outs stats i row line tr,
       line ∈ row → strip line ≠ [] →
       (∃ m, min_len args = Some m ∧ len (encoder args sp (strip line)) < m)
       ∨ (∃ m, max_len args = Some m ∧ m < len (encoder args sp (strip line))) →
       consume args outs stats i
         (encode_lines (encoder args sp) (validator args) row) tr
       = (inr {| num_empty := num_empty stats;
                 num_filtered := num_filtered stats + 1 |},
          tr ++ progress i)).
Proof.
  split.
  - intros toks. unfold valid_length_filter. rewrite andb_true_iff.
    destruct (min_len args) as [lo|], (max_len args) as [hi|];
      rewrite ?Z.leb_le; split.
    all: try (intros [? ?]; split; [try (by left); right; eauto
                                   |try (by left); right; eauto]).
    all: intros [[?|(? & [= <-] & ?)] [?|(? & [= <-] & ?)]]; done.
  - intros sp outs stats i row line tr Hin Hne Hout.
    assert (validator args (encoder args sp (strip line)) = false) as Hv.
    { rewrite validator_bounded.
      - unfold valid_length_filter. apply andb_false_iff.
        destruct Hout as [(m & -> & Hm)|(m & -> & Hm)].
        + left. apply Z.leb_gt. done.
        + right. apply Z.leb_gt. done.
      - destruct Hout as [(m & -> & _)|(m & -> & _)]; [by left|by right]. }
    assert ((encode_lines (encoder args sp) (validator args) row).1.2 = true)
      as Hf.
    { apply encode_lines_filtered. exists line. split; [done|].
      by rewrite encode_line_nonempty, Hv. }
    rewrite consume_eq. unfold step_stats, step_events, written.
    by rewrite Hf.
Qed.

(** The line ["a"] has one piece, below [--min-len 2]. *)
Lemma C3_witness :
  consume Example.args [file 0 (lit "out.txt")]
    {| num_empty := 0; num_filtered := 0 |} 3
    (encode_lines (encoder Example.args Example.words)
       (validator Example.args) [lit "a" ++ nl]) []
  = (inr {| num_empty := 0; num_filtered := 0 + 1 |}, [] ++ progress 3).
Proof.
  apply (proj2 (C3_length_filter Example.args) Example.words
           [file 0 (lit "out.txt")] {| num_empty := 0; num_filtered := 0 |} 3
           [lit "a" ++ nl] (lit "a" ++ nl) []).
  - apply list_elem_of_here.
  - vm_compute. discriminate.
  - left. exists 2. split; [reflexivity|vm_compute; reflexivity].
Defined.

Lemma consume_blank (args : Args) (encode : str → list str)
    (valid : list str → bool) (outs : list handle) (stats : Stats) (i : Z)
    (row : list str) (tr : list event) :
  row ≠ [] → Forall (λ line, strip line = []) row →
  consume args outs stats i (encode_lines encode valid row) tr
  = if keep_empty args then
      (inr stats,
       tr ++ row_events (replicate (length row) (Some (lit ""))) outs
          ++ progress i)
    else
      (inr {| num_empty := num_empty stats + 1;
              num_filtered := num_filtered stats |},
       tr ++ progress i).
Proof.
  intros Hne Hall. rewrite encode_lines_blank by done. rewrite consume_eq.
  unfold step_stats, step_events, written. cbn [fst snd negb andb].
  by destruct (keep_empty args).
Qed.

Lemma row_events_blank (n : nat) (outs : list handle) :
  row_events (replicate n (Some (lit ""))) outs
  = map (λ h, Output h nl) (take n outs).
Proof.
  unfold row_events. revert outs. induction n as [|n IH]; intros outs.
  - by rewrite take_0.
  - destruct outs as [|h outs]; [done|]. cbn. f_equal. apply IH.
Qed.

(** C4. For a row all of whose lines are empty after stripping, every
    position's output is the empty string; with keep-empty off nothing is
    printed and the empty counter grows by one; with keep-empty on an empty
    line is printed to each output stream of the row and no counter moves. *)
Theorem C4_blank_rows (args : Args) (sp : SentencePieceProcessor)
    (ins : list (list str)) (outs : list handle) (stats : Stats) (i : Z)
    (row : list str) (tr : list event) :
  row ∈ zip_star ins → Forall (λ line, strip line = []) row →
  (encode_lines (encoder args sp) (validator args) row).1.1
  = replicate (length row) (Some (lit ""))
  ∧ consume args outs stats i
      (encode_lines (encoder args sp) (validator args) row) tr
    = if keep_empty args then
        (inr stats,
         tr ++ map (λ h, Output h nl) (take (length row) outs) ++ progress i)
      else
        (inr {| num_empty := num_empty stats + 1;
                num_filtered := num_filtered stats |},
         tr ++ progress i).
Proof.
  intros Hne%zip_star_nonempty Hall. split.
  - by rewrite encode_lines_blank.
  - rewrite consume_blank by done. by rewrite row_events_blank.
Qed.

(** A blank line with keep-empty off, and the same with keep-empty on. *)
Lemma C4_witness :
  consume Example.args [file 0 (lit "out.txt")]
    {| num_empty := 0; num_filtered := 0 |} 2
    (encode_lines (encoder Example.args Example.words)
       (validator Example.args) [lit "  " ++ nl]) []
  = (inr {| num_empty := 1; num_filtered := 0 |}, [])
  ∧ consume Example.args_keep [file 0 (lit "out.txt")]
      {| num_empty := 0; num_filtered := 0 |} 2
      (encode_lines (encoder Example.args_keep Example.words)
         (validator Example.args_keep) [lit "  " ++ nl]) []
    = (inr {| num_empty := 0; num_filtered := 0 |},
       [Output (file 0 (lit "out.txt")) nl]).
Proof.
  split.
  - apply (proj2 (C4_blank_rows Example.args Example.words
             [[lit "a" ++ nl; lit "  " ++ nl]]
             [file 0 (lit "out.txt")] {| num_empty := 0; num_filtered := 0 |}
             2 [lit "  " ++ nl] []
             ltac:(apply list_elem_of_further, list_elem_of_here)
             ltac:(repeat constructor))).
  - apply (proj2 (C4_blank_rows Example.args_keep Example.words
             [[lit "a" ++ nl; lit "  " ++ nl]]
             [file 0 (lit "out.txt")] {| num_empty := 0; num_filtered := 0 |}
             2 [lit "  " ++ nl] []
             ltac:(apply list_elem_of_further, list_elem_of_here)
             ltac:(repeat constructor))).
Defined.

(** C10. A line that is empty after stripping never reaches the tokenizer
    or the length predicate, whatever they are, and is never marked
    filtered; so a row of such lines always takes the empty branch, counted
    or written empty under keep-empty, and never moves the filtered counter,
    whatever length bounds are set. *)
Theorem C10_blank_never_filtered (args : Args) (encode : str → list str)
    (valid : list str → bool) (ins : list (list str)) (outs : list handle)
    (stats : Stats) (i : Z) (row : list str) (tr : list event) :
  (∀ line, strip line = [] →
     encode_line encode valid line = (Some (lit ""), false, true))
  ∧ (row ∈ zip_star ins → Forall (λ line, strip line = []) row →
     (encode_lines encode valid row).1.2 = false
     ∧ (encode_lines encode valid row).2 = true
     ∧ ∃ stats' tr',
         consume args outs stats i (encode_lines encode valid row) tr
         = (inr stats', tr')
         ∧ num_filtered stats' = num_filtered stats
         ∧ if keep_empty args then
             num_empty stats' = num_empty stats
             ∧ tr' = tr ++ map (λ h, Output h nl) (take (length row) outs)
                        ++ progress i
           else
             num_empty stats' = num_empty stats + 1 ∧ tr' = tr ++ progress i).
Proof.
  split; [intros line; apply encode_line_empty|].
  intros Hne%zip_star_nonempty Hall. rewrite consume_blank by done.
  rewrite encode_lines_blank by done. cbn [fst snd].
  split; [done|]. split; [done|].
  destruct (keep_empty args); eexists _, _; (split; [done|]).
  - by rewrite row_events_blank.
  - done.
Qed.

(** A blank row under [--min-len 2], and under a predicate that rejects
    everything. *)
Lemma C10_witness :
  (encode_lines (encoder Example.args Example.words)
     (validator Example.args) [nl; lit " " ++ nl]).1.2 = false
  ∧ (encode_lines (encoder Example.args Example.words) (λ _, false)
       [nl; lit " " ++ nl]).1.2 = false.
Proof.
  split.
  - apply (proj2 (C10_blank_never_filtered Example.args
             (encoder Example.args Example.words) (validator Example.args)
             [[nl]; [lit " " ++ nl]]
             [] {| num_empty := 0; num_filtered := 0 |} 1
             [nl; lit " " ++ nl] [])
             ltac:(apply list_elem_of_here) ltac:(repeat constructor)).
  - apply (proj2 (C10_blank_never_filtered Example.args
             (encoder Example.args Example.words) (λ _, false)
             [[nl]; [lit " " ++ nl]]
             [] {| num_empty := 0; num_filtered := 0 |} 1
             [nl; lit " " ++ nl] [])
             ltac:(apply list_elem_of_here) ltac:(repeat constructor)).
Defined.

Lemma main_passes (e : Env) (args : Args) (sched : Pool.schedule) :
  length (inputs args) = length (outputs args) → passes (main e args sched).
Proof.
  intros Hlen. unfold main. rewrite bool_decide_eq_true_2 by done.
  apply passes_bind; [apply passes_ret|intros _].
  apply passes_bind.
  { unfold load. destruct (spm_load e (model args));
      [apply passes_ret|by apply passes_raise]. }
  intros sp. apply passes_bind; [apply open_inputs_passes|intros ins].
  apply passes_bind; [apply open_outputs_passes|intros outs].
  apply passes_bind; [apply run_pool_passes|intros stats].
  apply passes_bind; [apply passes_emit|intros _].
  apply passes_bind; [apply passes_emit|intros _].
  apply passes_ret.
Qed.

(** C7. When the numbers of input and output paths differ, the run ends
    in the failed assertion, with a non-zero exit status, before any file is
    opened and before anything is printed; when they are equal, the
    assertion passes, whatever the inputs hold. *)
Theorem C7_count_mismatch (e : Env) (args : Args) (sched : Pool.schedule)
    (tr : list event) :
  (length (inputs args) ≠ length (outputs args) →
   main e args sched tr = (inl AssertionError, tr)
   ∧ exit_code (main e args sched tr).1 ≠ 0)
  ∧ (length (inputs args) = length (outputs args) →
     (main e args sched tr).1 ≠ inl AssertionError).
Proof.
  split.
  - intros Hne.
    assert (main e args sched tr = (inl AssertionError, tr)) as ->; [|done].
    unfold main. by rewrite bool_decide_eq_false_2 by done.
  - intros Hlen. by apply main_passes.
Qed.

(** Two inputs for one output; and one input for one output. *)
Lemma C7_witness :
  main (Example.env Example.words Example.three_lines) Example.args_mismatch
    [(0, 0)%nat] [] = (inl AssertionError, [])
  ∧ (main (Example.env Example.words Example.three_lines) Example.args
       [(0, 0)%nat] []).1 ≠ inl AssertionError.
Proof.
  split.
  - apply (proj1 (C7_count_mismatch
             (Example.env Example.words Example.three_lines)
             Example.args_mismatch [(0, 0)%nat] [])).
    vm_compute. discriminate.
  - apply (proj2 (C7_count_mismatch
             (Example.env Example.words Example.three_lines)
             Example.args [(0, 0)%nat] [])).
    reflexivity.
Defined.




(** C5. For every input and any two pool sizes, with whatever order the
    batches finish in, the run is the in-order run: the rows are consumed
    in input order, so the files opened, the lines written to every stream
    and the final counters are the same. *)
Theorem C5_pool_size_independent (e : Env) (args : Args) (p1 p2 : Z)
    (s1 s2 : Pool.schedule) (tr : list event) :
  1 ≤ p1 → 1 ≤ p2 →
  Pool.valid_schedule (Z.to_nat p1) (n_batches e args) s1 →
  Pool.valid_schedule (Z.to_nat p2) (n_batches e args) s2 →
  main e (with_processes p1 args) s1 tr = main_in_order e args tr
  ∧ main e (with_processes p2 args) s2 tr = main_in_order e args tr
  ∧ main e (with_processes p1 args) s1 tr
    = main e (with_processes p2 args) s2 tr.
Proof.
  intros Hp1 Hp2 Hs1 Hs2.
  assert (∀ p s, 1 ≤ p → Pool.valid_schedule (Z.to_nat p) (n_batches e args) s →
            main e (with_processes p args) s tr = main_in_order e args tr) as H.
  { intros p s Hp Hs. rewrite main_ordered by done.
    apply main_in_order_processes. }
  rewrite !H by done. done.
Qed.

(** 1200 rows in three batches: one worker finishing them in order, and
    twelve workers finishing them out of order. *)
Lemma C5_witness :
  main (Example.env Example.words Example.many_lines)
    (with_processes 1 Example.args) [(0, 0); (0, 1); (0, 2)]%nat []
  = main (Example.env Example.words Example.many_lines)
      (with_processes 12 Example.args) [(7, 2); (11, 0); (3, 1)]%nat [].
Proof.
  apply (C5_pool_size_independent
           (Example.env Example.words Example.many_lines) Example.args 1 12).
  - reflexivity.
  - discriminate.
  - split.
    + reflexivity.
    + repeat constructor.
  - split.
    + change (n_batches _ _) with 3%nat.
      change ([(7, 2); (11, 0); (3, 1)]%nat.*2) with [2; 0; 1]%nat.
      change (seq 0 3) with [0; 1; 2]%nat.
      apply (perm_trans (l' := [0; 2; 1]%nat)); [apply perm_swap|].
      apply perm_skip, perm_swap.
    + change (Z.to_nat 12) with 12%nat. repeat constructor.
Defined.

(** C6. The input file with the lines "hello world", "" and "a", under
    [--min-len 2], one process, piece mode and a model with two pieces for
    "hello world" and one for "a": the run writes exactly one output line,
    the encoding of "hello world", and ends with an empty counter of 1 and a
    filtered counter of 1, which the two summary lines report. *)
Theorem C6_end_to_end (sp : SentencePieceProcessor) (sched : Pool.schedule) :
  length (EncodeAsPieces sp (lit "hello world")) = 2%nat →
  length (EncodeAsPieces sp (lit "a")) = 1%nat →
  Pool.valid_schedule 1 1 sched →
  main (Example.env sp Example.three_lines) Example.args sched []
  = (inr {| num_empty := 1; num_filtered := 1 |},
     [OpenRead (lit "in.txt");
      OpenWrite (lit "out.txt");
      Output (file 0 (lit "out.txt"))
        (join (lit " ") (EncodeAsPieces sp (lit "hello world")) ++ nl);
      Output stderr (lit "skipped 1 empty lines" ++ nl);
      Output stderr (lit "filtered 1 lines" ++ nl)]).
Proof.
  intros Hhello Ha Hsched.
  rewrite main_ordered; [|done|exact Hsched].
  vm_compute in Hhello, Ha. vm_compute.
  rewrite Hhello, Ha. reflexivity.
Qed.

(** The words of a line as its pieces. *)
Lemma C6_witness :
  main (Example.env Example.words Example.three_lines) Example.args
    [(0, 0)%nat] []
  = (inr {| num_empty := 1; num_filtered := 1 |},
     [OpenRead (lit "in.txt");
      OpenWrite (lit "out.txt");
      Output (file 0 (lit "out.txt")) (lit "hello world" ++ nl);
      Output stderr (lit "skipped 1 empty lines" ++ nl);
      Output stderr (lit "filtered 1 lines" ++ nl)]).
Proof.
  apply (C6_end_to_end Example.words [(0, 0)%nat]).
  - reflexivity.
  - reflexivity.
  - split; [reflexivity|repeat constructor].
Defined.

Lemma open_inputs_cut (e : Env) (n : nat) (paths : list str) (k : nat)
    (tr : list event) :
  open_inputs (cut_env n e) k paths tr
  = match open_inputs e k paths tr with
    | (inl ex, tr') => (inl ex, tr')
    | (inr ins, tr') => (inr (map (take n) ins), tr')
    end.
Proof.
  revert k tr. induction paths as [|input rest IH]; intros k tr; [done|].
  cbn [open_inputs]. unfold mbind, io_bind.
  destruct (decide (input ≠ lit "-")) as [Hfile|Hstd].
  - unfold open_read. cbn [cut_env fs_lines].
    destruct (fs_lines e input) as [ls|]; [|done]. cbn [fmap option_fmap option_map].
    unfold mbind, io_bind, emit, mret, io_ret. rewrite IH.
    by destruct (open_inputs e (S k) rest (tr ++ [OpenRead input])) as [[ex|ins] tr'].
  - unfold mret at 1 3. unfold io_ret. rewrite IH.
    by destruct (open_inputs e (S k) rest tr) as [[ex|ins] tr'].
Qed.

Lemma open_outputs_cut (e : Env) (n : nat) (paths : list str) (k : nat) :
  open_outputs (cut_env n e) k paths = open_outputs e k paths.
Proof.
  revert k. induction paths as [|output rest IH]; intros k; [done|].
  cbn [open_outputs]. by rewrite IH.
Qed.

(** The lines after the last row of the inputs do not reach [main]. *)
Lemma main_cut (e : Env) (args : Args) (sched : Pool.schedule)
    (tr : list event) :
  main (cut_env (n_rows e args) e) args sched tr = main e args sched tr.
Proof.
  unfold main, mbind, io_bind.
  destruct (assert_ _ tr) as [[ex|[]] tr0]; [done|].
  change (load (cut_env (n_rows e args) e)) with (load e).
  destruct (load e (model args) tr0) as [[ex|sp] tr1]; [done|].
  rewrite open_inputs_cut, open_outputs_cut.
  destruct (open_inputs e 0 (inputs args) tr1) as [[ex|ins] tr2] eqn:Hins;
    [done|].
  destruct (open_outputs e 0 (outputs args) tr2) as [[ex|outs] tr3]; [done|].
  assert (n_rows e args = length (zip_star ins)) as ->.
  { rewrite open_inputs_stable in Hins. injection Hins as Hins _.
    unfold n_rows. by rewrite Hins. }
  assert (run_pool (cut_env (length (zip_star ins)) e) args sched
            (map (take (length (zip_star ins))) ins) outs
          = run_pool e args sched ins outs) as ->; [|done].
  unfold run_pool. rewrite zip_star_take. by rewrite take_ge.
Qed.

(** C8. When the inputs differ in their number of lines, the rows
    processed are as many as the lines of a shortest input: the pool block
    ends without an exception, consumes exactly that many rows, each moving
    one counter or being written, and computes what it computes on the
    inputs cut to that length; and [main] does what it does when every
    input ends after that many lines, so the lines beyond change nothing. *)
Theorem C8_shortest_input (e : Env) (args : Args) (sched : Pool.schedule)
    (ins : list (list str)) (outs : list handle)
    (sp : SentencePieceProcessor) (tr : list event) :
  ins ≠ [] → 1 ≤ processes args → initialize_sp e args = Some sp →
  Pool.valid_schedule (Z.to_nat (processes args))
    (length (Pool.get_tasks 500 (zip_star ins))) sched →
  let n := length (zip_star ins) in
  let rs := map (encode_lines (encoder args sp) (validator args)) (zip_star ins) in
  (∀ f, f ∈ ins → (n ≤ length f)%nat)
  ∧ (∃ f, f ∈ ins ∧ length f = n)
  ∧ length rs = n
  ∧ (∃ stats,
       run_pool e args sched ins outs tr
       = (inr stats, tr ++ loop_events args outs 1 rs)
       ∧ num_filtered stats + num_empty stats
         + len (filter (λ r, written args r = true) rs) = Z.of_nat n)
  ∧ run_pool e args sched (map (take n) ins) outs tr
    = run_pool e args sched ins outs tr
  ∧ main (cut_env (n_rows e args) e) args sched tr = main e args sched tr.
Proof.
  intros Hne Hp Hinit Hsched n rs.
  destruct (zip_star_length ins Hne) as [Hle Hmin].
  split; [done|]. split; [done|]. split; [by unfold rs; rewrite length_map|].
  split.
  { rewrite (run_pool_ordered e args sched ins outs sp) by done.
    fold rs. rewrite consume_all_eq. eexists. split; [done|].
    pose proof (loop_count args rs {| num_empty := 0; num_filtered := 0 |}) as Hc.
    cbn zeta in Hc. rewrite Hc. cbn [num_filtered num_empty].
    unfold len, rs. rewrite length_map. fold n. lia. }
  split; [|apply main_cut].
  unfold run_pool. rewrite zip_star_take. unfold n. by rewrite take_ge.
Qed.

(** Three lines against one: a single row. *)
Lemma C8_witness :
  run_pool (Example.env Example.words Example.three_lines) Example.args
    [(0, 0)%nat]
    (map (take 1) [Example.three_lines; [lit "bonjour le monde" ++ nl]])
    [stdout; stdout] []
  = run_pool (Example.env Example.words Example.three_lines) Example.args
      [(0, 0)%nat] [Example.three_lines; [lit "bonjour le monde" ++ nl]]
      [stdout; stdout] [].
Proof.
  refine (proj1 (proj2 (proj2 (proj2 (proj2
           (C8_shortest_input
              (Example.env Example.words Example.three_lines)
              Example.args [(0, 0)%nat]
              [Example.three_lines; [lit "bonjour le monde" ++ nl]]
              [stdout; stdout] Example.words [] _ _ _ _)))))).
  - discriminate.
  - reflexivity.
  - reflexivity.
  - split; [reflexivity|repeat constructor].
Defined.


(** * Further properties of the script *)

Lemma validator_length_filter (args : Args) (toks : list str) :
  validator args toks = valid_length_filter args toks
  ∧ (min_len args = None → max_len args = None → validator args toks = true).
Proof.
  unfold validator, valid_length_filter, valid_true.
  destruct (min_len args), (max_len args); cbn; split; try done.
Qed.

(** X1. [main]'s choice of [valid_true] when no bound is given changes
    nothing: the predicate it installs is the length filter in every
    case, and without bounds it accepts every token sequence. *)
Theorem X1_validator_is_length_filter (args : Args) (toks : list str) :
  validator args toks = valid_length_filter args toks
  ∧ (min_len args = None → max_len args = None → validator args toks = true).
Proof. apply validator_length_filter. Qed.

Lemma step_stats_unfiltered (args : Args) (stats : Stats) (r : result) :
  r.1.2 = false →
  num_filtered (step_stats args stats r) = num_filtered stats.
Proof.
  unfold step_stats. intros ->.
  by destruct (r.2 && negb (keep_empty args)).
Qed.

Lemma step_stats_keep (args : Args) (stats : Stats) (r : result) :
  keep_empty args = true →
  num_empty (step_stats args stats r) = num_empty stats.
Proof.
  unfold step_stats. intros ->. rewrite andb_false_r. by destruct (r.1.2).
Qed.

(** X2. Without [--min-len] and [--max-len] no row is ever filtered: over
    any rows, the loop leaves the filtered counter where it was, and every
    row is written or counted as empty. *)
Theorem X2_no_bounds_no_filtering (args : Args) (sp : SentencePieceProcessor)
    (outs : list handle) (rows : list (list str)) (stats : Stats) (i : Z)
    (tr : list event) :
  min_len args = None → max_len args = None →
  let rs := map (encode_lines (encoder args sp) (validator args)) rows in
  Forall (λ r : result, r.1.2 = false) rs
  ∧ ∃ stats',
      consume_all args outs stats i rs tr
      = (inr stats', tr ++ loop_events args outs i rs)
      ∧ num_filtered stats' = num_filtered stats
      ∧ num_empty stats' + len (filter (λ r, written args r = true) rs)
        = num_empty stats + len rs.
Proof.
  intros Hmin Hmax rs.
  assert (Forall (λ r : result, r.1.2 = false) rs) as Hall.
  { unfold rs. apply Forall_map, Forall_forall. intros row _.
    apply not_true_iff_false. rewrite encode_lines_filtered.
    intros (line & _ & Hf). revert Hf. unfold encode_line.
    destruct (0 <? len (strip line)); [|done].
    by rewrite (proj2 (validator_length_filter args _) Hmin Hmax). }
  split; [done|]. rewrite consume_all_eq. eexists. split; [done|].
  assert (num_filtered (foldl (step_stats args) stats rs) = num_filtered stats)
    as Hnf.
  { clear -Hall. revert stats. induction Hall as [|r rs Hr _ IH]; intros stats;
      [done|]. cbn [foldl]. rewrite IH. by apply step_stats_unfiltered. }
  split; [done|]. pose proof (loop_count args rs stats) as Hc.
  cbn zeta in Hc. lia.
Qed.

(** Blank and short lines, no bound, ids. *)
Lemma X2_witness :
  Forall (λ r : result, r.1.2 = false)
    (map (encode_lines (encoder Example.args_ids Example.words)
            (validator Example.args_ids))
       [[lit "a" ++ nl]; [nl]; [lit "b c d" ++ nl]]).
Proof.
  apply (proj1 (X2_no_bounds_no_filtering Example.args_ids Example.words
                  [stdout] [[lit "a" ++ nl]; [nl]; [lit "b c d" ++ nl]]
                  {| num_empty := 0; num_filtered := 0 |} 1 []
                  eq_refl eq_refl)).
Defined.

(** X3. With [--keep-empty] the empty counter never moves, whatever the
    rows: every row that is not filtered is written, blank or not. *)
Theorem X3_keep_empty_counts_nothing (args : Args) (outs : list handle)
    (rs : list result) (stats : Stats) (i : Z) (tr : list event) :
  keep_empty args = true →
  (∀ r, written args r = negb r.1.2)
  ∧ ∃ stats',
      consume_all args outs stats i rs tr
      = (inr stats', tr ++ loop_events args outs i rs)
      ∧ num_empty stats' = num_empty stats
      ∧ num_filtered stats' + len (filter (λ r, written args r = true) rs)
        = num_filtered stats + len rs.
Proof.
  intros Hk. split.
  - intros r. unfold written. rewrite Hk. cbn. by rewrite andb_false_r, andb_true_r.
  - rewrite consume_all_eq. eexists. split; [done|].
    assert (num_empty (foldl (step_stats args) stats rs) = num_empty stats)
      as Hne.
    { revert stats. induction rs as [|r rs IH]; intros stats; [done|].
      cbn [foldl]. rewrite IH. by apply step_stats_keep. }
    split; [done|]. pose proof (loop_count args rs stats) as Hc.
    cbn zeta in Hc. lia.
Qed.

(** A blank row and a filtered row under [--keep-empty]. *)
Lemma X3_witness :
  ∃ stats',
    consume_all Example.args_keep [stdout]
      {| num_empty := 0; num_filtered := 0 |} 1
      [([Some (lit "")], false, true); ([None], true, false)] []
    = (inr stats',
       [] ++ loop_events Example.args_keep [stdout] 1
               [([Some (lit "")], false, true); ([None], true, false)])
    ∧ num_empty stats' = 0
    ∧ num_filtered stats'
      + len (filter (λ r, written Example.args_keep r = true)
               [([Some (lit "")], false, true); ([None], true, false)])
      = 0 + len [([Some (lit "")], false, true); ([None], true, false)].
Proof.
  apply (proj2 (X3_keep_empty_counts_nothing Example.args_keep [stdout]
                  [([Some (lit "")], false, true); ([None], true, false)]
                  {| num_empty := 0; num_filtered := 0 |} 1 [] eq_refl)).
Defined.

(** X4. A row that is written holds an encoded text at every position:
    [None], the placeholder of a filtered position, is never printed. *)
Theorem X4_written_rows_hold_texts (args : Args) (encode : str → list str)
    (valid : list str → bool) (row : list str) (outs : list handle) :
  written args (encode_lines encode valid row) = true →
  ∃ texts,
    (encode_lines encode valid row).1.1 = map Some texts
    ∧ length texts = length row
    ∧ row_events (encode_lines encode valid row).1.1 outs
      = zip_with (λ text h, Output h (text ++ nl)) texts outs.
Proof.
  intros Hw. assert ((encode_lines encode valid row).1.2 = false) as Hf.
  { unfold written in Hw. by destruct ((encode_lines encode valid row).1.2). }
  pose proof (encode_lines_unfiltered encode valid row Hf) as Hall.
  pose proof (encode_lines_fst encode valid row) as Hfst.
  assert (length (encode_lines encode valid row).1.1 = length row) as Hlen
    by (by rewrite Hfst, length_map).
  clear Hfst. revert Hall Hlen.
  generalize (encode_lines encode valid row).1.1. intros enc Hall Hlen.
  exists (omap id enc).
  assert (enc = map Some (omap id enc)) as Henc.
  { clear Hlen. induction Hall as [|[x|] enc Hx _ IH]; [done| |done].
    cbn. by f_equal. }
  split; [done|]. split.
  - rewrite <- Hlen. rewrite Henc at 2. by rewrite length_map.
  - unfold row_events. rewrite Henc at 1. generalize (omap id enc).
    clear. intros texts. revert outs.
    induction texts as [|t texts IH]; intros [|h outs]; try done.
    cbn. f_equal. apply IH.
Qed.

(** Two words under [--min-len 2] and a blank line under [--keep-empty]. *)
Lemma X4_witness :
  ∃ texts,
    (encode_lines (encoder Example.args_keep Example.words)
       (validator Example.args_keep) [lit "hello world" ++ nl; nl]).1.1
    = map Some texts
    ∧ length texts = 2%nat
    ∧ row_events
        (encode_lines (encoder Example.args_keep Example.words)
           (validator Example.args_keep) [lit "hello world" ++ nl; nl]).1.1
        [stdout; file 1 (lit "out.txt")]
      = zip_with (λ text h, Output h (text ++ nl)) texts
          [stdout; file 1 (lit "out.txt")].
Proof.
  apply (X4_written_rows_hold_texts Example.args_keep
           (encoder Example.args_keep Example.words)
           (validator Example.args_keep) [lit "hello world" ++ nl; nl]
           [stdout; file 1 (lit "out.txt")] eq_refl).
Defined.

Lemma written_to_app (h : handle) (a b : list event) :
  written_to h (a ++ b) = written_to h a ++ written_to h b.
Proof. apply omap_app. Qed.

Lemma written_to_progress (h : handle) (i : Z) :
  written_to h (progress i)
  = if decide (h = stderr) then
      if i `mod` 10000 =? 0 then [progress_line i] else []
    else [].
Proof.
  unfold progress. destruct (i `mod` 10000 =? 0); cbn.
  - destruct (decide (stderr = h)) as [<-|Hne].
    + by rewrite decide_True.
    + by rewrite decide_False.
  - by destruct (decide (h = stderr)).
Qed.

Lemma written_to_row_other (h : handle) (enc : list (option str))
    (outs : list handle) :
  h ∉ outs → written_to h (row_events enc outs) = [].
Proof.
  revert enc. induction outs as [|h0 outs IH]; intros [|x enc] Hh; try done.
  apply not_elem_of_cons in Hh as [Hne Hh]. cbn.
  rewrite decide_False by done. by apply IH.
Qed.

Lemma written_to_row (h : handle) (enc : list (option str))
    (outs : list handle) (k : nat) (x : option str) :
  NoDup outs → outs !! k = Some h → enc !! k = Some x →
  written_to h (row_events enc outs) = [str_of x ++ nl].
Proof.
  revert enc k. induction outs as [|h0 outs IH]; intros [|x0 enc] k Hnd Hk Hx;
    try done.
  apply NoDup_cons in Hnd as [Hh0 Hnd]. destruct k as [|k]; cbn in *.
  - injection Hk as ->. injection Hx as ->. rewrite decide_True by done.
    f_equal. by apply written_to_row_other.
  - rewrite decide_False; [by eapply IH|].
    intros ->. apply Hh0. by eapply list_elem_of_lookup_2.
Qed.

(** X5. The progress lines on the error stream are exactly those of the
    iterations whose number is a multiple of 10000, in order; nothing else
    reaches the error stream during the loop. *)
Theorem X5_progress_lines (args : Args) (outs : list handle)
    (rs : list result) (i : Z) :
  stderr ∉ outs →
  written_to stderr (loop_events args outs i rs)
  = map progress_line
      (filter (λ j, j `mod` 10000 = 0) (seqZ i (len rs))).
Proof.
  intros Herr. revert i. induction rs as [|r rs IH]; intros i; [done|].
  cbn [loop_events]. unfold step_events.
  rewrite !written_to_app, written_to_progress, IH.
  assert (written_to stderr (if written args r then row_events r.1.1 outs else [])
          = []) as ->.
  { destruct (written args r); [by apply written_to_row_other|done]. }
  rewrite decide_True by done.
  rewrite (seqZ_cons i (len (r :: rs))) by (unfold len; cbn [length]; lia).
  replace (Z.pred (len (r :: rs))) with (len rs)
    by (unfold len; cbn [length]; lia).
  replace (Z.succ i) with (i + 1) by lia.
  rewrite filter_cons. destruct (Z.eqb_spec (i `mod` 10000) 0) as [Hi|Hi].
  - by rewrite decide_True.
  - by rewrite decide_False.
Qed.

(** Three rows from iteration 9999 on: one progress line, for 10000. *)
Lemma X5_witness :
  written_to stderr
    (loop_events Example.args [stdout] 9999
       [([Some (lit "a b")], false, false); ([None], true, false);
        ([Some (lit "")], false, true)])
  = map progress_line
      (filter (λ j, j `mod` 10000 = 0)
         (seqZ 9999 (len [([Some (lit "a b")], false, false);
                          ([None], true, false);
                          ([Some (lit "")], false, true)]))).
Proof.
  apply (X5_progress_lines Example.args [stdout]).
  intros H. apply list_elem_of_singleton in H. discriminate.
Defined.

(** X8. Parallel outputs stay aligned: when the output handles are
    distinct, the handle at position [k] receives, for every written row in
    input order and for no other row, the line encoded at position [k]. *)
Theorem X8_outputs_aligned (args : Args) (outs : list handle)
    (rs : list result) (i : Z) (k : nat) (h : handle) :
  NoDup outs → stderr ∉ outs →
  Forall (λ r : result, length r.1.1 = length outs) rs →
  outs !! k = Some h →
  written_to h (loop_events args outs i rs)
  = map (λ r : result, str_of (default None (r.1.1 !! k)) ++ nl)
      (filter (λ r, written args r = true) rs).
Proof.
  intros Hnd Herr Hwidth Hk.
  assert (h ≠ stderr) as Hh.
  { intros ->. apply Herr. by eapply list_elem_of_lookup_2. }
  revert i. induction Hwidth as [|r rs Hr _ IH]; intros i; [done|].
  cbn [loop_events]. unfold step_events.
  rewrite !written_to_app, written_to_progress, IH.
  rewrite decide_False by done. rewrite app_nil_r, filter_cons.
  destruct (written args r) eqn:Hw.
  - rewrite decide_True by done. cbn [map].
    destruct (lookup_lt_is_Some_2 r.1.1 k) as [x Hx].
    { rewrite Hr. by eapply lookup_lt_Some. }
    rewrite (written_to_row h _ outs k x) by done. by rewrite Hx.
  - by rewrite decide_False.
Qed.

(** Two outputs, three rows of which the second is filtered. *)
Lemma X8_witness :
  written_to (file 1 (lit "out.fr"))
    (loop_events Example.args [file 0 (lit "out.en"); file 1 (lit "out.fr")] 1
       [([Some (lit "a b"); Some (lit "c d")], false, false);
        ([Some (lit "e f"); None], true, false);
        ([Some (lit "g h"); Some (lit "i j")], false, false)])
  = map (λ r : result, str_of (default None (r.1.1 !! 1%nat)) ++ nl)
      (filter (λ r, written Example.args r = true)
         [([Some (lit "a b"); Some (lit "c d")], false, false);
          ([Some (lit "e f"); None], true, false);
          ([Some (lit "g h"); Some (lit "i j")], false, false)]).
Proof.
  apply (X8_outputs_aligned Example.args
           [file 0 (lit "out.en"); file 1 (lit "out.fr")]).
  - apply NoDup_cons. split; [|apply NoDup_singleton].
    intros H. apply list_elem_of_singleton in H. discriminate.
  - intros H. apply elem_of_cons in H as [H|H]; [discriminate|].
    apply list_elem_of_singleton in H. discriminate.
  - repeat constructor.
  - reflexivity.
Defined.

Lemma open_outputs_cons (e : Env) (k : nat) (output : str) (rest : list str)
    (tr : list event) :
  open_outputs e k (output :: rest) tr
  = if decide (output ≠ lit "-") then
      if fs_writable e output then
        match open_outputs e (S k) rest (tr ++ [OpenWrite output]) with
        | (inl ex, tr') => (inl ex, tr')
        | (inr hs, tr') => (inr (file k output :: hs), tr')
        end
      else (inl (OSError output), tr)
    else
      match open_outputs e (S k) rest tr with
      | (inl ex, tr') => (inl ex, tr')
      | (inr hs, tr') => (inr (stdout :: hs), tr')
      end.
Proof.
  cbn [open_outputs]. unfold mbind, io_bind, open_write.
  destruct (decide (output ≠ lit "-")).
  - destruct (fs_writable e output); [|done].
    unfold mbind, io_bind, emit, mret, io_ret.
    by destruct (open_outputs e (S k) rest (tr ++ [OpenWrite output]))
      as [[ex|hs] tr'].
  - unfold mret, io_ret.
    by destruct (open_outputs e (S k) rest tr) as [[ex|hs] tr'].
Qed.

Lemma open_outputs_shape (e : Env) (paths : list str) (k : nat)
    (tr tr' : list event) (outs : list handle) :
  open_outputs e k paths tr = (inr outs, tr') →
  outs = imap (λ j path, if decide (path = lit "-") then stdout
                          else file (k + j) path) paths
  ∧ tr' = tr ++ map OpenWrite (filter (λ path, path ≠ lit "-") paths).
Proof.
  revert k tr outs. induction paths as [|output rest IH]; intros k tr outs.
  - cbn. intros [= <- <-]. by rewrite app_nil_r.
  - rewrite open_outputs_cons, filter_cons. cbn [imap].
    destruct (decide (output ≠ lit "-")) as [Hfile|Hstd].
    + rewrite decide_False by done.
      destruct (fs_writable e output); [|done].
      destruct (open_outputs e (S k) rest _) as [[ex|hs] t] eqn:Hrest; [done|].
      intros [= <- <-]. destruct (IH _ _ _ Hrest) as [-> ->].
      split; [|by rewrite <- app_assoc].
      rewrite Nat.add_0_r. f_equal. apply imap_ext. intros j path _. cbn.
      by rewrite Nat.add_succ_r.
    + apply dec_stable in Hstd. rewrite decide_True by done.
      destruct (open_outputs e (S k) rest _) as [[ex|hs] t] eqn:Hrest; [done|].
      intros [= <- <-]. destruct (IH _ _ _ Hrest) as [-> ->].
      split; [|done]. f_equal. apply imap_ext. intros j path _. cbn.
      by rewrite Nat.add_succ_r.
Qed.

(** X6. When the outputs open, there is one handle per output path, in
    order: standard output for ["-"] and a file object of its own, created
    in that order, for every other path; the error stream is never an
    output; and the handles are distinct as soon as ["-"] is given at most
    once. *)
Theorem X6_open_outputs (e : Env) (paths : list str) (tr tr' : list event)
    (outs : list handle) :
  open_outputs e 0 paths tr = (inr outs, tr') →
  length outs = length paths
  ∧ (∀ j path, paths !! j = Some path →
       outs !! j = Some (if decide (path = lit "-") then stdout
                         else file j path))
  ∧ (stderr ∉ outs)
  ∧ (created tr' = created tr ++ filter (λ path, path ≠ lit "-") paths)
  ∧ ((∀ j1 j2, paths !! j1 = Some (lit "-") → paths !! j2 = Some (lit "-") →
        j1 = j2) →
     NoDup outs).
Proof.
  intros Hopen. destruct (open_outputs_shape _ _ _ _ _ _ Hopen) as [-> ->].
  assert (∀ j path, paths !! j = Some path →
            imap (λ j path, if decide (path = lit "-") then stdout
                            else file (0 + j) path) paths !! j
            = Some (if decide (path = lit "-") then stdout else file j path))
    as Hlook.
  { intros j path Hj. by rewrite list_lookup_imap, Hj. }
  split; [by rewrite length_imap|]. split; [done|]. split; [|split].
  - intros Hin. apply list_elem_of_lookup in Hin as [j Hj].
    rewrite list_lookup_imap in Hj.
    destruct (paths !! j) as [path|]; [|done]. cbn in Hj.
    by destruct (decide (path = lit "-")).
  - unfold created. rewrite omap_app. f_equal.
    generalize (filter (λ path, path ≠ lit "-") paths). clear. intros l.
    induction l as [|path l IH]; [done|]. cbn. by f_equal.
  - intros Honce. apply NoDup_alt. intros j1 j2 h Hj1 Hj2.
    rewrite list_lookup_imap in Hj1, Hj2.
    destruct (paths !! j1) as [p1|] eqn:Hp1; [|done].
    destruct (paths !! j2) as [p2|] eqn:Hp2; [|done].
    cbn in Hj1, Hj2.
    destruct (decide (p1 = lit "-")) as [->|?],
             (decide (p2 = lit "-")) as [->|?]; simplify_eq; [by apply Honce|done].
Qed.

(** A file, standard output, and a second file. *)
Lemma X6_witness :
  open_outputs (Example.env Example.words []) 0
    [lit "out.en"; lit "-"; lit "out.fr"] []
  = (inr [file 0 (lit "out.en"); stdout; file 2 (lit "out.fr")],
     [OpenWrite (lit "out.en"); OpenWrite (lit "out.fr")])
  ∧ NoDup [file 0 (lit "out.en"); stdout; file 2 (lit "out.fr")].
Proof.
  assert (open_outputs (Example.env Example.words []) 0
            [lit "out.en"; lit "-"; lit "out.fr"] []
          = (inr [file 0 (lit "out.en"); stdout; file 2 (lit "out.fr")],
             [OpenWrite (lit "out.en"); OpenWrite (lit "out.fr")])) as Hopen
    by reflexivity.
  split; [exact Hopen|].
  apply (proj2 (proj2 (proj2 (proj2
           (X6_open_outputs _ _ _ _ _ Hopen))))).
  intros [|[|[|j1]]] [|[|[|j2]]] H1 H2; try done; vm_compute in H1, H2;
    discriminate.
Defined.


Lemma open_inputs_cons (e : Env) (k : nat) (input : str) (rest : list str)
    (tr : list event) :
  open_inputs e k (input :: rest) tr
  = if decide (input ≠ lit "-") then
      match fs_lines e input with
      | Some ls =>
          match open_inputs e (S k) rest (tr ++ [OpenRead input]) with
          | (inl ex, tr') => (inl ex, tr')
          | (inr fs, tr') => (inr (ls :: fs), tr')
          end
      | None => (inl (OSError input), tr)
      end
    else
      match open_inputs e (S k) rest tr with
      | (inl ex, tr') => (inl ex, tr')
      | (inr fs, tr') => (inr (stdin_lines e k :: fs), tr')
      end.
Proof.
  cbn [open_inputs]. unfold mbind, io_bind, open_read.
  destruct (decide (input ≠ lit "-")).
  - destruct (fs_lines e input); [|done].
    unfold mbind, io_bind, emit, mret, io_ret.
    by destruct (open_inputs e (S k) rest (tr ++ [OpenRead input]))
      as [[ex|fs] tr'].
  - unfold mret, io_ret.
    by destruct (open_inputs e (S k) rest tr) as [[ex|fs] tr'].
Qed.

(** The inputs open when each of them does. *)
Lemma open_inputs_ok (e : Env) (paths : list str) (k : nat) (tr : list event) :
  Forall (readable e) paths →
  open_inputs e k paths tr
  = (inr (input_lines e k paths), tr ++ map OpenRead (files paths)).
Proof.
  intros Hall. revert k tr.
  induction Hall as [|input rest Hin _ IH]; intros k tr.
  - cbn. by rewrite app_nil_r.
  - rewrite open_inputs_cons. unfold files, input_lines.
    rewrite filter_cons. cbn [imap].
    assert (imap ((λ j path, if decide (path = lit "-")
                             then stdin_lines e (k + j)
                             else default [] (fs_lines e path)) ∘ S) rest
            = imap (λ j path, if decide (path = lit "-")
                              then stdin_lines e (S k + j)
                              else default [] (fs_lines e path)) rest) as ->.
    { apply imap_ext. intros j path _. cbn. by rewrite Nat.add_succ_r. }
    rewrite Nat.add_0_r.
    destruct (decide (input ≠ lit "-")) as [Hfile|Hstd].
    + rewrite decide_False by done. destruct Hin as [?|[ls Hls]]; [done|].
      rewrite Hls, IH. cbn. unfold files. by rewrite <- app_assoc.
    + apply dec_stable in Hstd. rewrite decide_True by done. by rewrite IH.
Qed.

(** The outputs open when each of them does. *)
Lemma open_outputs_ok (e : Env) (paths : list str) (tr : list event) :
  Forall (writable e) paths →
  open_outputs e 0 paths tr
  = (inr (output_handles paths), tr ++ map OpenWrite (files paths)).
Proof.
  intros Hall.
  assert (∀ k, open_outputs e k paths tr
               = (inr (imap (λ j path, if decide (path = lit "-") then stdout
                                       else file (k + j) path) paths),
                  tr ++ map OpenWrite (files paths))) as H; [|apply H].
  revert tr. induction Hall as [|output rest Hout _ IH]; intros tr k.
  - cbn. by rewrite app_nil_r.
  - rewrite open_outputs_cons. unfold files. rewrite filter_cons.
    cbn [imap].
    assert (imap ((λ j path, if decide (path = lit "-") then stdout
                             else file (k + j) path) ∘ S) rest
            = imap (λ j path, if decide (path = lit "-") then stdout
                              else file (S k + j) path) rest) as ->.
    { apply imap_ext. intros j path _. cbn. by rewrite Nat.add_succ_r. }
    rewrite Nat.add_0_r.
    destruct (decide (output ≠ lit "-")) as [Hfile|Hstd].
    + rewrite decide_False by done. destruct Hout as [?|Hw]; [done|].
      rewrite Hw, IH. cbn. unfold files. by rewrite <- app_assoc.
    + apply dec_stable in Hstd. rewrite decide_True by done. by rewrite IH.
Qed.

Lemma open_inputs_fails (e : Env) (pre post : list str) (path : str)
    (k : nat) (tr : list event) :
  Forall (readable e) pre → path ≠ lit "-" → fs_lines e path = None →
  open_inputs e k (pre ++ path :: post) tr
  = (inl (OSError path), tr ++ map OpenRead (files pre)).
Proof.
  intros Hall Hfile Hnone. revert k tr.
  induction Hall as [|input rest Hin _ IH]; intros k tr.
  - cbn [app]. rewrite open_inputs_cons, decide_True by done.
    rewrite Hnone. cbn. by rewrite app_nil_r.
  - cbn [app]. rewrite open_inputs_cons. unfold files. rewrite filter_cons.
    destruct (decide (input ≠ lit "-")) as [Hf|Hstd].
    + destruct Hin as [?|[ls Hls]]; [done|]. rewrite Hls, IH. cbn.
      by rewrite <- app_assoc.
    + by rewrite IH.
Qed.

(** X7. When an input file cannot be opened, [main] ends in the [OSError]
    of the first such file, having opened only the inputs before it: no
    output file has been created or truncated and nothing has been printed. *)
Theorem X7_unreadable_input (e : Env) (args : Args) (sched : Pool.schedule)
    (tr : list event) (pre post : list str) (path : str) :
  length (inputs args) = length (outputs args) →
  is_Some (spm_load e (model args)) →
  inputs args = pre ++ path :: post →
  Forall (readable e) pre → path ≠ lit "-" → fs_lines e path = None →
  main e args sched tr = (inl (OSError path), tr ++ map OpenRead (files pre))
  ∧ created (main e args sched tr).2 = created tr
  ∧ (∀ h, written_to h (main e args sched tr).2 = written_to h tr).
Proof.
  intros Hlen [sp Hsp] Hin Hall Hfile Hnone.
  assert (main e args sched tr
          = (inl (OSError path), tr ++ map OpenRead (files pre))) as ->.
  { unfold main. rewrite bool_decide_eq_true_2 by done.
    unfold mbind, io_bind, assert_, load. rewrite Hsp, Hin. cbn.
    by rewrite open_inputs_fails. }
  split; [done|]. cbn [snd]. unfold created, written_to.
  rewrite !omap_app.
  assert (∀ l, omap (λ ev, match ev with OpenWrite p => Some p | _ => None end)
                 (map OpenRead l) = []) as ->.
  { intros l. induction l; [done|]. by cbn. }
  split; [by rewrite app_nil_r|]. intros h. rewrite omap_app.
  assert (∀ l, omap (λ ev, match ev with
                           | Output h' text =>
                               if decide (h' = h) then Some text else None
                           | _ => None
                           end) (map OpenRead l) = []) as ->.
  { intros l. induction l; [done|]. by cbn. }
  by rewrite app_nil_r.
Qed.

(** The second of two inputs is missing. *)
Lemma X7_witness :
  main (Example.env Example.words Example.three_lines)
    {| model := lit "spm.model"; inputs := [lit "in.txt"; lit "missing.txt"];
       outputs := [lit "out.en"; lit "out.fr"]; output_format := piece;
       min_len := None; max_len := None; processes := 2;
       keep_empty := false |} [] []
  = (inl (OSError (lit "missing.txt")),
     [] ++ map OpenRead (files [lit "in.txt"])).
Proof.
  apply (X7_unreadable_input (Example.env Example.words Example.three_lines)
           _ [] [] [lit "in.txt"] [] (lit "missing.txt")).
  - reflexivity.
  - by eexists.
  - reflexivity.
  - apply Forall_cons. split; [right; by eexists|apply Forall_nil_2].
  - discriminate.
  - reflexivity.
Defined.


Lemma parse_str_of_int (n : Z) : parse_int (str_of_int n) = Some n.
Proof.
  unfold parse_int, str_of_int, lit. rewrite map_map.
  rewrite (map_ext _ id), map_id by (intros a; apply ascii_N_embedding).
  rewrite string_of_list_ascii_of_string, NilZero.isi.
  - cbn. by rewrite DecimalZ.of_to.
  - destruct n as [|p|p]; cbn; [done| |done].
    intros [= Hp]. by apply DecimalPos.Unsigned.to_uint_nonnil in Hp.
  - destruct n as [|p|p]; cbn; [done|done|].
    intros [= Hp]. by apply DecimalPos.Unsigned.to_uint_nonnil in Hp.
Qed.

(** X9. In id mode the written line can be read back: for a line that is
    not empty after stripping, passes the bounds and has at least one id,
    splitting the output on spaces and reading each field as a decimal
    integer gives exactly the ids the library returned. *)
Theorem X9_ids_round_trip (sp : SentencePieceProcessor) (args : Args)
    (line : str) :
  output_format args = id_ → strip line ≠ [] →
  EncodeAsIds sp (strip line) ≠ [] →
  validator args (encoder args sp (strip line)) = true →
  ∃ out,
    encode_line (encoder args sp) (validator args) line
    = (Some out, false, false)
    ∧ map parse_int (split 32 out) = map Some (EncodeAsIds sp (strip line)).
Proof.
  intros Hid Hne Hids Hv. rewrite encode_line_nonempty, Hv by done.
  eexists. split; [done|]. unfold encoder. rewrite Hid. unfold encode_as_ids.
  change (lit " ") with [32%N]. rewrite split_join.
  - rewrite map_map. apply map_ext. intros n. apply parse_str_of_int.
  - by destruct (EncodeAsIds sp (strip line)).
  - apply Forall_map, Forall_forall. intros n _. apply str_of_int_no_space.
Qed.

(** The code points of "hi" as ids. *)
Lemma X9_witness :
  ∃ out,
    encode_line (encoder Example.args_ids Example.words)
      (validator Example.args_ids) (lit "hi" ++ nl)
    = (Some out, false, false)
    ∧ map parse_int (split 32 out)
      = map Some (EncodeAsIds Example.words (strip (lit "hi" ++ nl))).
Proof.
  apply (X9_ids_round_trip Example.words Example.args_ids (lit "hi" ++ nl)).
  - reflexivity.
  - vm_compute. discriminate.
  - vm_compute. discriminate.
  - reflexivity.
Defined.

Lemma lstrip_space_app (pre s : str) :
  Forall (λ c, isspace c = true) pre → lstrip (pre ++ s) = lstrip s.
Proof. induction 1 as [|c pre Hc _ IH]; [done|]. cbn. by rewrite Hc. Qed.

Lemma lstrip_all_space (s : str) :
  lstrip s = [] ↔ Forall (λ c, isspace c = true) s.
Proof.
  induction s as [|c s IH]; cbn; [done|].
  destruct (isspace c) eqn:Hc.
  - rewrite IH. split; [by constructor|by inversion 1].
  - split; [done|]. inversion 1. congruence.
Qed.

Lemma lstrip_app_space (s post : str) :
  Forall (λ c, isspace c = true) post →
  lstrip (s ++ post) = if decide (lstrip s = []) then [] else lstrip s ++ post.
Proof.
  intros Hpost. induction s as [|c s IH]; cbn.
  - by apply lstrip_all_space.
  - destruct (isspace c); [done|]. by rewrite decide_False.
Qed.

Lemma rstrip_app_space (s post : str) :
  Forall (λ c, isspace c = true) post → rstrip (s ++ post) = rstrip s.
Proof.
  intros Hpost. unfold rstrip. rewrite rev_app_distr, lstrip_space_app; [done|].
  apply Forall_forall. intros c Hc. apply list_elem_of_In, in_rev in Hc.
  rewrite Forall_forall in Hpost. by apply Hpost, list_elem_of_In.
Qed.

Lemma strip_surrounded (pre s post : str) :
  Forall (λ c, isspace c = true) pre → Forall (λ c, isspace c = true) post →
  strip (pre ++ s ++ post) = strip s.
Proof.
  intros Hpre Hpost. unfold strip.
  rewrite lstrip_space_app, lstrip_app_space by done.
  destruct (decide (lstrip s = [])) as [->|_]; [done|].
  by apply rstrip_app_space.
Qed.

(** X10. White space around a line does not matter: a line encodes as it
    does with any white space (blanks, tabs, the line end, a carriage
    return) added in front of it and after it. *)
Theorem X10_surrounding_whitespace (encode : str → list str)
    (valid : list str → bool) (pre line post : str) :
  Forall (λ c, isspace c = true) pre → Forall (λ c, isspace c = true) post →
  strip (pre ++ line ++ post) = strip line
  ∧ encode_line encode valid (pre ++ line ++ post)
    = encode_line encode valid line.
Proof.
  intros Hpre Hpost. split; [by apply strip_surrounded|].
  unfold encode_line. by rewrite strip_surrounded.
Qed.

(** A tab in front, a carriage return and a line feed after. *)
Lemma X10_witness :
  strip ([9%N] ++ lit "a b" ++ [13%N; 10%N]) = strip (lit "a b")
  ∧ encode_line (EncodeAsPieces Example.words) (λ _, true)
      ([9%N] ++ lit "a b" ++ [13%N; 10%N])
    = encode_line (EncodeAsPieces Example.words) (λ _, true) (lit "a b").
Proof.
  apply (X10_surrounding_whitespace (EncodeAsPieces Example.words) (λ _, true)
           [9%N] (lit "a b") [13%N; 10%N]); repeat constructor.
Defined.



(** What [main] does once the files are open, when the rows it consumes
    are [rs]. *)
Lemma main_opened (e : Env) (args : Args) (sched : Pool.schedule)
    (tr : list event) (sp : SentencePieceProcessor) (rs : list result) :
  length (inputs args) = length (outputs args) →
  spm_load e (model args) = Some sp →
  Forall (readable e) (inputs args) → Forall (writable e) (outputs args) →
  (∀ tr', run_pool e args sched (input_lines e 0 (inputs args))
            (output_handles (outputs args)) tr'
          = consume_all args (output_handles (outputs args))
              {| num_empty := 0; num_filtered := 0 |} 1 rs tr') →
  main e args sched tr
  = (inr (foldl (step_stats args) {| num_empty := 0; num_filtered := 0 |} rs),
     tr ++ map OpenRead (files (inputs args))
        ++ map OpenWrite (files (outputs args))
        ++ loop_events args (output_handles (outputs args)) 1 rs
        ++ summary (foldl (step_stats args)
                      {| num_empty := 0; num_filtered := 0 |} rs)).
Proof.
  intros Hlen Hsp Hin Hout Hrun. unfold main.
  rewrite bool_decide_eq_true_2 by done.
  unfold mbind, io_bind, assert_, load. rewrite Hsp. cbn [mret io_ret].
  rewrite open_inputs_ok, open_outputs_ok, Hrun, consume_all_eq by done.
  unfold print, emit, mret, io_ret, summary. f_equal.
  by rewrite <- !app_assoc.
Qed.



Lemma imap_no_rows {A B} (p : Pool.pool) (sched : Pool.schedule)
    (func : SentencePieceProcessor → A → B) (chunksize : nat) :
  Pool.imap p sched func [] chunksize = [].
Proof.
  unfold Pool.imap. cbn [Pool.get_tasks Pool.get_tasks_fuel length].
  assert (∀ b : Pool.buffer (list B),
            foldl (λ b wj, match Pool.workers p !! wj.1, @nil (list A) !! wj.2 with
                           | Some sp, Some task =>
                               Pool.deliver wj.2 (map (func sp) task) b
                           | _, _ => b
                           end) b sched = b) as ->; [|done].
  induction sched as [|wj sched IH]; intros b; [done|]. cbn [foldl].
  rewrite lookup_nil. by destruct (Pool.workers p !! wj.1).
Qed.

Lemma zip_star_no_rows {A} (ls : list (list A)) : [] ∈ ls → zip_star ls = [].
Proof.
  intros Hin. destruct (zip_star_length ls) as [Hle _].
  { intros ->. by apply not_elem_of_nil in Hin. }
  specialize (Hle [] Hin). cbn in Hle. apply length_zero_iff_nil. lia.
Qed.

(** X11. When one of the inputs has no line, there is no row, whatever the
    other inputs hold and whatever the pool does: the run creates the output
    files, writes nothing to them, and reports zero empty and zero filtered
    lines. *)
Theorem X11_empty_input (e : Env) (args : Args) (sched : Pool.schedule)
    (tr : list event) :
  length (inputs args) = length (outputs args) →
  is_Some (spm_load e (model args)) →
  Forall (readable e) (inputs args) → Forall (writable e) (outputs args) →
  1 ≤ processes args →
  [] ∈ input_lines e 0 (inputs args) →
  main e args sched tr
  = (inr {| num_empty := 0; num_filtered := 0 |},
     tr ++ map OpenRead (files (inputs args))
        ++ map OpenWrite (files (outputs args))
        ++ summary {| num_empty := 0; num_filtered := 0 |}).
Proof.
  intros Hlen [sp Hsp] Hin Hout Hp Hempty.
  rewrite (main_opened e args sched tr sp []); try done.
  intros tr'. unfold run_pool, Pool.create, initialize_sp. rewrite Hsp.
  assert ((processes args <? 1) = false) as -> by (apply Z.ltb_ge; lia).
  unfold mbind, io_bind, mret, io_ret.
  by rewrite zip_star_no_rows, imap_no_rows.
Qed.

(** An empty input file, and a schedule that names batches that are not. *)
Lemma X11_witness :
  main (Example.env Example.words []) Example.args [(0, 3); (5, 1)]%nat []
  = (inr {| num_empty := 0; num_filtered := 0 |},
     [] ++ map OpenRead (files (inputs Example.args))
        ++ map OpenWrite (files (outputs Example.args))
        ++ summary {| num_empty := 0; num_filtered := 0 |}).
Proof.
  apply (X11_empty_input (Example.env Example.words []) Example.args).
  - reflexivity.
  - by eexists.
  - apply Forall_cons. split; [right; by eexists|apply Forall_nil_2].
  - apply Forall_cons. split; [by right|apply Forall_nil_2].
  - reflexivity.
  - apply list_elem_of_here.
Defined.

(** X13. When the model does not load, [main] ends in the load error
    before any file is opened: no input is read and no output file is
    created or truncated. *)
Theorem X13_model_not_loaded (e : Env) (args : Args) (sched : Pool.schedule)
    (tr : list event) :
  length (inputs args) = length (outputs args) →
  spm_load e (model args) = None →
  main e args sched tr = (inl LoadError, tr)
  ∧ exit_code (main e args sched tr).1 = 1.
Proof.
  intros Hlen Hload.
  assert (main e args sched tr = (inl LoadError, tr)) as ->; [|done].
  unfold main. rewrite bool_decide_eq_true_2 by done.
  unfold mbind, io_bind, assert_, load. by rewrite Hload.
Qed.

(** An environment without any model. *)
Lemma X13_witness :
  main {| spm_load := λ _, None; fs_lines := λ _, Some [];
          fs_writable := λ _, true; stdin_lines := λ _, [] |}
    Example.args [] []
  = (inl LoadError, []).
Proof.
  apply (X13_model_not_loaded
           {| spm_load := λ _, None; fs_lines := λ _, Some [];
              fs_writable := λ _, true; stdin_lines := λ _, [] |}
           Example.args [] [] eq_refl eq_refl).
Defined.

Lemma open_outputs_fails (e : Env) (pre post : list str) (path : str)
    (k : nat) (tr : list event) :
  Forall (writable e) pre → path ≠ lit "-" → fs_writable e path = false →
  open_outputs e k (pre ++ path :: post) tr
  = (inl (OSError path), tr ++ map OpenWrite (files pre)).
Proof.
  intros Hall Hfile Hno. revert k tr.
  induction Hall as [|output rest Hout _ IH]; intros k tr.
  - cbn [app]. rewrite open_outputs_cons, decide_True by done.
    rewrite Hno. cbn. by rewrite app_nil_r.
  - cbn [app]. rewrite open_outputs_cons. unfold files. rewrite filter_cons.
    destruct (decide (output ≠ lit "-")) as [Hf|Hstd].
    + destruct Hout as [?|Hw]; [done|]. rewrite Hw, IH. cbn.
      unfold files. by rewrite <- app_assoc.
    + by rewrite IH.
Qed.

(** X14. When an output file cannot be opened, [main] ends in the [OSError]
    of the first such file after it has opened every input and created the
    output files before it, which stay behind empty: nothing has been
    printed to any stream. *)
Theorem X14_unwritable_output (e : Env) (args : Args) (sched : Pool.schedule)
    (tr : list event) (pre post : list str) (path : str) :
  length (inputs args) = length (outputs args) →
  is_Some (spm_load e (model args)) →
  Forall (readable e) (inputs args) →
  outputs args = pre ++ path :: post →
  Forall (writable e) pre → path ≠ lit "-" → fs_writable e path = false →
  main e args sched tr
  = (inl (OSError path),
     tr ++ map OpenRead (files (inputs args)) ++ map OpenWrite (files pre))
  ∧ created (main e args sched tr).2 = created tr ++ files pre
  ∧ (∀ h, written_to h (main e args sched tr).2 = written_to h tr).
Proof.
  intros Hlen [sp Hsp] Hin Hout Hall Hfile Hno.
  assert (main e args sched tr
          = (inl (OSError path),
             tr ++ map OpenRead (files (inputs args))
                ++ map OpenWrite (files pre))) as ->.
  { unfold main. rewrite bool_decide_eq_true_2 by done.
    unfold mbind, io_bind, assert_, load. rewrite Hsp. cbn [mret io_ret].
    rewrite open_inputs_ok, Hout by done.
    rewrite open_outputs_fails by done. by rewrite <- app_assoc. }
  split; [done|]. cbn [snd]. unfold created, written_to.
  rewrite !omap_app.
  assert (∀ l, omap (λ ev, match ev with OpenWrite p => Some p | _ => None end)
                 (map OpenRead l) = []) as ->.
  { intros l. induction l; [done|]. by cbn. }
  assert (∀ l, omap (λ ev, match ev with OpenWrite p => Some p | _ => None end)
                 (map OpenWrite l) = l) as ->.
  { intros l. induction l as [|x l IH]; [done|]. cbn. by f_equal. }
  split; [done|]. intros h. rewrite !omap_app.
  assert (∀ l, omap (λ ev, match ev with
                           | Output h' text =>
                               if decide (h' = h) then Some text else None
                           | _ => None
                           end) (map OpenRead l) = []) as ->.
  { intros l. induction l; [done|]. by cbn. }
  assert (∀ l, omap (λ ev, match ev with
                           | Output h' text =>
                               if decide (h' = h) then Some text else None
                           | _ => None
                           end) (map OpenWrite l) = []) as ->.
  { intros l. induction l; [done|]. by cbn. }
  by rewrite !app_nil_r.
Qed.

(** The second of two output paths cannot be written. *)
Lemma X14_witness :
  main Parallel.env Parallel.args [] []
  = (inl (OSError (lit "out.fr")),
     [] ++ map OpenRead (files (inputs Parallel.args))
        ++ map OpenWrite (files [lit "out.en"])).
Proof.
  apply (X14_unwritable_output Parallel.env Parallel.args [] []
           [lit "out.en"] [] (lit "out.fr")).
  - reflexivity.
  - by eexists.
  - apply Forall_cons. split; [right; by eexists|].
    apply Forall_cons. split; [right; by eexists|apply Forall_nil_2].
  - reflexivity.
  - apply Forall_cons. split; [by right|apply Forall_nil_2].
  - discriminate.
  - reflexivity.
Defined.

(** X15. Bounds that exclude each other, a maximum below the minimum,
    accept no token sequence: every row with a line that is not blank is
    filtered, and nothing of it is printed. *)
Theorem X15_contradictory_bounds (args : Args) (lo hi : Z) :
  min_len args = Some lo → max_len args = Some hi → hi < lo →
  (∀ toks, validator args toks = false)
  ∧ (∀ sp outs stats i row line tr,
       line ∈ row → strip line ≠ [] →
       consume args outs stats i
         (encode_lines (encoder args sp) (validator args) row) tr
       = (inr {| num_empty := num_empty stats;
                 num_filtered := num_filtered stats + 1 |},
          tr ++ progress i)).
Proof.
  intros Hlo Hhi Hlt.
  assert (∀ toks, validator args toks = false) as Hv.
  { intros toks. rewrite (proj1 (validator_length_filter args toks)).
    unfold valid_length_filter. rewrite Hlo, Hhi. apply andb_false_iff.
    destruct (Z.leb_spec lo (len toks)); [right|by left].
    apply Z.leb_gt. lia. }
  split; [done|]. intros sp outs stats i row line tr Hin Hne.
  assert ((encode_lines (encoder args sp) (validator args) row).1.2 = true)
    as Hf.
  { apply encode_lines_filtered. exists line. split; [done|].
    by rewrite encode_line_nonempty, Hv. }
  rewrite consume_eq. unfold step_stats, step_events, written. by rewrite Hf.
Qed.

(** [--min-len 3 --max-len 2]. *)
Lemma X15_witness :
  validator Parallel.args_3_2 [lit "a"; lit "b"] = false
  ∧ validator Parallel.args_3_2 [lit "a"; lit "b"; lit "c"] = false.
Proof.
  split; apply (proj1 (X15_contradictory_bounds Parallel.args_3_2 3 2
                         eq_refl eq_refl eq_refl)).
Defined.
